(** * A model of db-server (src/src/lib.rs, src/src/error.rs)

    Rust strings are modelled as the list of their UTF-8 bytes ([bytes],
    one [ascii] per byte, [ascii] being an 8-bit value).  The store
    [HashMap<String, Value>] is a stdpp [gmap]; [serde_json::Value] is an
    inductive type; the serde_json compact serializer and the serde_json
    parser are written out on bytes.  Floating-point JSON numbers are not
    part of the model (see [parse_number]). *)

From Stdlib Require Import Ascii String ZArith.
From stdpp Require Import base list gmap strings.

Abbreviation bytes := (list ascii).

(** String literals of the source, as bytes. *)
Definition lit (s : string) : bytes := list_ascii_of_string s.

Definition byte (n : nat) : ascii := ascii_of_nat n.
Definition bval (c : ascii) : nat := nat_of_ascii c.

(** Rust's [Result]. *)
Inductive result (A E : Type) : Type :=
| Ok (a : A)
| Err (e : E).
Arguments Ok {A E} a.
Arguments Err {A E} e.

(** ** Decimal printing of unsigned integers (itoa, and [{:?}] of a u32) *)

Definition digit_char (d : N) : ascii := byte (48 + N.to_nat d).

Fixpoint decimal_aux (fuel : nat) (n : N) (acc : bytes) : bytes :=
  match fuel with
  | O => acc
  | S f =>
      let acc' := digit_char (n mod 10) :: acc in
      if (n <? 10)%N then acc' else decimal_aux f (n / 10)%N acc'
  end.

Definition decimal (n : N) : bytes := decimal_aux (S (N.size_nat n)) n [].

(** ** Pieces of [core::str] used by the parser *)

(** [str::starts_with] *)
Fixpoint starts_with (p s : bytes) : bool :=
  match p, s with
  | [], _ => true
  | a :: p', b :: s' => if ascii_dec a b then starts_with p' s' else false
  | _ :: _, [] => false
  end.

(** [str::split] with a non-empty string pattern: leftmost,
    non-overlapping matches.  [cur] is the current segment (reversed) and
    [skip] the number of bytes of a match still to be skipped. *)
Fixpoint split_aux (pat s cur : bytes) (skip : nat) : list bytes :=
  match s with
  | [] => [rev cur]
  | c :: s' =>
      match skip with
      | S k => split_aux pat s' cur k
      | O =>
          if starts_with pat s then rev cur :: split_aux pat s' [] (length pat - 1)
          else split_aux pat s' (c :: cur) 0
      end
  end.

Definition split (s pat : bytes) : list bytes := split_aux pat s [] 0.

(** Cutting valid UTF-8 into its characters (each one a list of 1 to 4
    bytes), by the width announced by the leading byte. *)
Fixpoint utf8_chars (s : bytes) : list bytes :=
  match s with
  | [] => []
  | c :: s1 =>
      if bval c <? 192 then [c] :: utf8_chars s1
      else match s1 with
           | [] => [[c]]
           | c2 :: s2 =>
               if bval c <? 224 then [c; c2] :: utf8_chars s2
               else match s2 with
                    | [] => [[c; c2]]
                    | c3 :: s3 =>
                        if bval c <? 240 then [c; c2; c3] :: utf8_chars s3
                        else match s3 with
                             | [] => [[c; c2; c3]]
                             | c4 :: s4 => [c; c2; c3; c4] :: utf8_chars s4
                             end
                    end
           end
  end.

(** [char::is_whitespace] (Unicode White_Space) on the UTF-8 encoding of
    one character: U+0009..U+000D, U+0020, U+0085, U+00A0, U+1680,
    U+2000..U+200A, U+2028, U+2029, U+202F, U+205F, U+3000. *)
Definition is_whitespace (ch : bytes) : bool :=
  match ch with
  | [a] => let x := bval a in ((9 <=? x) && (x <=? 13)) || (x =? 32)
  | [a; b] => (bval a =? 194) && ((bval b =? 133) || (bval b =? 160))
  | [a; b; c] =>
      let x := bval a in let y := bval b in let z := bval c in
      ((x =? 225) && (y =? 154) && (z =? 128))
      || ((x =? 226) && (y =? 128)
          && (((128 <=? z) && (z <=? 138)) || (z =? 168) || (z =? 169) || (z =? 175)))
      || ((x =? 226) && (y =? 129) && (z =? 159))
      || ((x =? 227) && (y =? 128) && (z =? 128))
  | _ => false
  end.

Fixpoint drop_ws (cs : list bytes) : list bytes :=
  match cs with
  | [] => []
  | ch :: cs' => if is_whitespace ch then drop_ws cs' else cs
  end.

Fixpoint take_non_ws (cs : list bytes) : bytes :=
  match cs with
  | [] => []
  | ch :: cs' => if is_whitespace ch then [] else ch ++ take_non_ws cs'
  end.

(** [s.split_whitespace().next()]: the first non-empty run of
    non-whitespace characters. *)
Definition split_whitespace_next (s : bytes) : option bytes :=
  match take_non_ws (drop_ws (utf8_chars s)) with
  | [] => None
  | tok => Some tok
  end.

(** [s.lines().take(1).next()]: [lines] is [split_terminator('\n')] with
    one trailing ['\r'] removed from each line; it yields nothing only on
    the empty string. *)
Fixpoint before_newline (s : bytes) : bytes :=
  match s with
  | [] => []
  | c :: s' => if bval c =? 10 then [] else c :: before_newline s'
  end.

Definition strip_cr (l : bytes) : bytes :=
  match rev l with
  | c :: r => if bval c =? 13 then rev r else l
  | [] => l
  end.

Definition first_line (s : bytes) : option bytes :=
  match s with
  | [] => None
  | _ => Some (strip_cr (before_newline s))
  end.

(** [String::from_utf8_lossy]: valid sequences are copied, each maximal
    invalid prefix of a sequence becomes one U+FFFD (EF BF BD). *)
Definition is_cont (c : ascii) : bool := (128 <=? bval c) && (bval c <? 192).

Definition replacement : bytes := [byte 239; byte 191; byte 189].

(** Range of the second byte of a 3-byte (lead E0..EF) or 4-byte (lead
    F0..F4) sequence. *)
Definition second_ok (lead : nat) (c : ascii) : bool :=
  let y := bval c in
  if lead =? 224 then (160 <=? y) && (y <? 192)
  else if lead =? 237 then (128 <=? y) && (y <? 160)
  else if lead =? 240 then (144 <=? y) && (y <? 192)
  else if lead =? 244 then (128 <=? y) && (y <? 144)
  else is_cont c.

Fixpoint from_utf8_lossy (s : bytes) : bytes :=
  match s with
  | [] => []
  | c :: s1 =>
      let b := bval c in
      if b <? 128 then c :: from_utf8_lossy s1
      else if (194 <=? b) && (b <=? 223) then
        match s1 with
        | [] => replacement
        | c2 :: s2 =>
            if is_cont c2 then c :: c2 :: from_utf8_lossy s2
            else replacement ++ from_utf8_lossy s1
        end
      else if (224 <=? b) && (b <=? 239) then
        match s1 with
        | [] => replacement
        | c2 :: s2 =>
            if second_ok b c2 then
              match s2 with
              | [] => replacement
              | c3 :: s3 =>
                  if is_cont c3 then c :: c2 :: c3 :: from_utf8_lossy s3
                  else replacement ++ from_utf8_lossy s2
              end
            else replacement ++ from_utf8_lossy s1
        end
      else if (240 <=? b) && (b <=? 244) then
        match s1 with
        | [] => replacement
        | c2 :: s2 =>
            if second_ok b c2 then
              match s2 with
              | [] => replacement
              | c3 :: s3 =>
                  if is_cont c3 then
                    match s3 with
                    | [] => replacement
                    | c4 :: s4 =>
                        if is_cont c4 then c :: c2 :: c3 :: c4 :: from_utf8_lossy s4
                        else replacement ++ from_utf8_lossy s3
                    end
                  else replacement ++ from_utf8_lossy s2
              end
            else replacement ++ from_utf8_lossy s1
        end
      else replacement ++ from_utf8_lossy s1
  end.

(** ** Errors (src/src/error.rs) *)

Inductive io_error : Type :=
| IoNotFound
| IoPermissionDenied
| IoInvalidData
| IoOther.

Inductive ParseError : Type :=
| InvalidRequest_ (code : N)
| MissingKey.

(** [ParseError]'s [Display] ([#[error(...)]]), the [reason] stored in
    [ServerError::ParseError]. *)
Definition parse_error_to_string (e : ParseError) : bytes :=
  match e with
  | InvalidRequest_ code => lit "Request was improperly formatted: " ++ decimal code
  | MissingKey => lit "No key found in request"
  end.

Inductive ServerError : Type :=
| ParseError_ (reason : bytes)
| ConnectionError
| InvalidRequest
| NoRequestFound
| NoResponseFound
| IoError (e : io_error)
| SerdeError.

(** ** Requests and responses *)

Definition BUFFER_SIZE : nat := 1024.
Definition SET_HEADER : bytes := lit "GET /set?".
Definition GET_HEADER : bytes := lit "GET /get?key=".
Definition SUCCESS_STATUS : bytes :=
  lit "HTTP/1.1 200 OK" ++ [byte 13; byte 10; byte 13; byte 10].
Definition NOT_FOUND_STATUS : bytes :=
  lit "HTTP/1.1 404 NOT FOUND" ++ [byte 13; byte 10; byte 13; byte 10].

Inductive Request : Type :=
| Get (key : bytes)
| Set_ (key val : bytes).

Inductive Response : Type :=
| GetSuccess (val : bytes)
| SetSuccess
| NotFound.

(** [fn parse_get] *)
Definition parse_get (request : bytes) : result bytes ParseError :=
  match split request (lit "key=") with
  | [_; last_part] =>
      match split_whitespace_next last_part with
      | Some key => Ok key
      | None => Err MissingKey
      end
  | _ => Err (InvalidRequest_ 1)
  end.

(** [fn parse_set] *)
Definition parse_set (request : bytes) : result (bytes * bytes) ParseError :=
  match split request (lit "set?") with
  | [_; last_part] =>
      match split_whitespace_next last_part with
      | Some kv =>
          match split kv (lit "=") with
          | [k; v] => Ok (k, v)
          | _ => Err (InvalidRequest_ 3)
          end
      | None => Err (InvalidRequest_ 4)
      end
  | _ => Err (InvalidRequest_ 2)
  end.

(** The buffer [[0; BUFFER_SIZE]] after [stream.read(&mut buffer)] has
    stored the bytes [data] at its start. *)
Definition fill_buffer (data : bytes) : bytes :=
  take BUFFER_SIZE (data ++ replicate BUFFER_SIZE (byte 0)).

(** The first line of [String::from_utf8_lossy(&buffer[..])]. *)
Definition request_line (data : bytes) : option bytes :=
  first_line (from_utf8_lossy (fill_buffer data)).

(** [fn parse_request]; the stream is represented by the outcome of its
    [read]. *)
Definition parse_request (read : result bytes io_error) : result Request ServerError :=
  match read with
  | Err e => Err (IoError e)
  | Ok data =>
      match request_line data with
      | None => Err NoRequestFound
      | Some request =>
          if starts_with GET_HEADER request then
            match parse_get request with
            | Ok key => Ok (Get key)
            | Err err => Err (ParseError_ (parse_error_to_string err))
            end
          else if starts_with SET_HEADER request then
            match parse_set request with
            | Ok (key, val) => Ok (Set_ key val)
            | Err err => Err (ParseError_ (parse_error_to_string err))
            end
          else Err InvalidRequest
      end
  end.

(** ** serde_json values and the compact serializer *)

#[local] Set Warnings "-register-all".

(** [serde_json::Number] without its [Float] variant: a [u64]
    ([PosInt]) or a negative [i64] ([NegInt]). *)
Inductive Number : Type :=
| PosInt (n : N)
| NegInt (z : Z).

Inductive Value : Type :=
| VNull
| VBool (b : bool)
| VNumber (n : Number)
| VString (s : bytes)
| VArray (l : list Value)
| VObject (m : list (bytes * Value)).

Definition QUOTE : ascii := byte 34.
Definition BACKSLASH : ascii := byte 92.

(** Lower-case hexadecimal digit of serde_json's [HEX] table. *)
Definition hex_digit (n : nat) : ascii :=
  byte (if n <? 10 then 48 + n else 87 + n).

(** serde_json's [ESCAPE] table and [write_char_escape], byte by byte. *)
Definition escape_byte (c : ascii) : bytes :=
  let b := bval c in
  if b =? 34 then [BACKSLASH; QUOTE]
  else if b =? 92 then [BACKSLASH; BACKSLASH]
  else if b <? 32 then
    if b =? 8 then [BACKSLASH; byte 98]
    else if b =? 9 then [BACKSLASH; byte 116]
    else if b =? 10 then [BACKSLASH; byte 110]
    else if b =? 12 then [BACKSLASH; byte 102]
    else if b =? 13 then [BACKSLASH; byte 114]
    else [BACKSLASH; byte 117; byte 48; byte 48; hex_digit (b / 16); hex_digit (b mod 16)]
  else [c].

(** [format_escaped_str]: the JSON string literal of [s]. *)
Definition serialize_str (s : bytes) : bytes :=
  [QUOTE] ++ flat_map escape_byte s ++ [QUOTE].

Definition serialize_number (n : Number) : bytes :=
  match n with
  | PosInt u => decimal u
  | NegInt z => byte 45 :: decimal (Z.to_N (- z))
  end.

Fixpoint join_comma (l : list bytes) : bytes :=
  match l with
  | [] => []
  | [x] => x
  | x :: l' => x ++ byte 44 :: join_comma l'
  end.

(** [serde_json::to_string] (compact formatter) of a [Value]; also the
    [Display] of a [Value] used by [val.to_string()]. *)
Fixpoint value_to_string (v : Value) : bytes :=
  match v with
  | VNull => lit "null"
  | VBool true => lit "true"
  | VBool false => lit "false"
  | VNumber n => serialize_number n
  | VString s => serialize_str s
  | VArray l => byte 91 :: join_comma (List.map value_to_string l) ++ [byte 93]
  | VObject m =>
      byte 123 :: join_comma (List.map (fun kv => serialize_str kv.1 ++ byte 58 :: value_to_string kv.2) m)
        ++ [byte 125]
  end.

(** [serde_json::to_string] of a [HashMap<String, Value>] whose iteration
    order is [entries]. *)
Definition map_to_string (entries : list (bytes * Value)) : bytes :=
  byte 123 :: join_comma (List.map (fun kv => serialize_str kv.1 ++ byte 58 :: value_to_string kv.2) entries)
    ++ [byte 125].

(** ** The store *)

(** [struct Storage(HashMap<String, Value>)] *)
Record Storage : Type := Storage_ { storage0 : gmap bytes Value }.

(** [fn handle_request] *)
Definition handle_request (request : Request) (storage : Storage) : Response * Storage :=
  match request with
  | Get key =>
      match storage0 storage !! key with
      | Some val => (GetSuccess (value_to_string val), storage)
      | None => (NotFound, storage)
      end
  | Set_ key val =>
      match storage0 storage !! key with
      | Some _ =>
          (* overwrite the current entry *)
          (SetSuccess, Storage_ (<[key := VString val]> (storage0 storage)))
      | None => (SetSuccess, Storage_ (<[key := VString val]> (storage0 storage)))
      end
  end.

(** A sequence of requests applied in order; the responses in order. *)
Fixpoint handle_all (reqs : list Request) (storage : Storage) : list Response * Storage :=
  match reqs with
  | [] => ([], storage)
  | r :: rs =>
      let '(resp, storage') := handle_request r storage in
      let '(resps, storage'') := handle_all rs storage' in
      (resp :: resps, storage'')
  end.

(** ** The serde_json parser ([serde_json::de], reading from a [&str]) *)

Inductive json_error : Type :=
| EofWhileParsingValue
| EofWhileParsingString
| EofWhileParsingList
| EofWhileParsingObject
| ExpectedSomeValue
| ExpectedSomeIdent
| ExpectedColon
| ExpectedListCommaOrEnd
| ExpectedObjectCommaOrEnd
| KeyMustBeAString
| InvalidNumber
| InvalidEscape
| ControlCharacterWhileParsingString
| LoneLeadingSurrogateInHexEscape
| UnexpectedEndOfHexEscape
| RecursionLimitExceeded
| TrailingComma
| TrailingCharacters
| InvalidType
(** a JSON number that serde_json reads as an [f64]; outside the model *)
| FloatNotModelled
(** the parser below runs on fuel; [from_str] gives it more than enough *)
| OutOfFuel.

Definition is_byte (n : nat) (c : ascii) : bool := bval c =? n.

(** [parse_whitespace]: skips ' ', '\n', '\t', '\r'. *)
Fixpoint skip_json_ws (s : bytes) : bytes :=
  match s with
  | c :: s' =>
      if is_byte 32 c || is_byte 10 c || is_byte 9 c || is_byte 13 c then skip_json_ws s'
      else s
  | [] => []
  end.

(** [parse_ident]: the rest of [null], [true] or [false]. *)
Fixpoint parse_ident (ident s : bytes) : result bytes json_error :=
  match ident, s with
  | [], _ => Ok s
  | _ :: _, [] => Err EofWhileParsingValue
  | i :: ident', c :: s' => if ascii_dec i c then parse_ident ident' s' else Err ExpectedSomeIdent
  end.

Definition is_digit (c : ascii) : bool := (48 <=? bval c) && (bval c <=? 57).
Definition digit_val (c : ascii) : N := N.of_nat (bval c - 48).

Definition U64_MAX : N := 18446744073709551615.

(** [parse_number]: what follows the digits of an integer. *)
Definition parse_number (positive : bool) (significand : N) (s : bytes)
  : result (Value * bytes) json_error :=
  match s with
  | c :: _ =>
      if is_byte 46 c || is_byte 101 c || is_byte 69 c then Err FloatNotModelled
      else if positive then Ok (VNumber (PosInt significand), s)
      else if (1 <=? significand)%N && (significand <=? 9223372036854775808)%N
      then Ok (VNumber (NegInt (- Z.of_N significand)), s)
      else Err FloatNotModelled
  | [] =>
      if positive then Ok (VNumber (PosInt significand), s)
      else if (1 <=? significand)%N && (significand <=? 9223372036854775808)%N
      then Ok (VNumber (NegInt (- Z.of_N significand)), s)
      else Err FloatNotModelled
  end.

(** The digit loop of [parse_integer]; on [u64] overflow serde_json
    switches to [parse_long_integer], which yields an [f64]. *)
Fixpoint parse_digits (positive : bool) (significand : N) (s : bytes)
  : result (Value * bytes) json_error :=
  match s with
  | c :: s' =>
      if is_digit c then
        if (U64_MAX <? significand * 10 + digit_val c)%N then Err FloatNotModelled
        else parse_digits positive (significand * 10 + digit_val c) s'
      else parse_number positive significand s
  | [] => parse_number positive significand s
  end.

(** [parse_integer]: a single leading '0', or a digit 1..9 and more
    digits. *)
Definition parse_integer (positive : bool) (s : bytes) : result (Value * bytes) json_error :=
  match s with
  | [] => Err InvalidNumber
  | c :: s1 =>
      if is_byte 48 c then
        match s1 with
        | d :: _ => if is_digit d then Err InvalidNumber else parse_number positive 0 s1
        | [] => parse_number positive 0 s1
        end
      else if is_digit c then parse_digits positive (digit_val c) s1
      else Err InvalidNumber
  end.

Definition hex_val (c : ascii) : option N :=
  let b := bval c in
  if (48 <=? b) && (b <=? 57) then Some (N.of_nat (b - 48))
  else if (97 <=? b) && (b <=? 102) then Some (N.of_nat (b - 87))
  else if (65 <=? b) && (b <=? 70) then Some (N.of_nat (b - 55))
  else None.

(** [decode_hex_escape] on four bytes. *)
Definition hex4 (a b c d : ascii) : option N :=
  match hex_val a, hex_val b, hex_val c, hex_val d with
  | Some x, Some y, Some z, Some w => Some (((x * 16 + y) * 16 + z) * 16 + w)%N
  | _, _, _, _ => None
  end.

Definition nbyte (n : N) : ascii := byte (N.to_nat n).

(** [char::encode_utf8] of a code point. *)
Definition utf8_encode (n : N) : bytes :=
  if (n <? 128)%N then [nbyte n]
  else if (n <? 2048)%N then [nbyte (192 + n / 64); nbyte (128 + n mod 64)]%N
  else if (n <? 65536)%N then
    [nbyte (224 + n / 4096); nbyte (128 + (n / 64) mod 64); nbyte (128 + n mod 64)]%N
  else
    [nbyte (240 + n / 262144); nbyte (128 + (n / 4096) mod 64);
     nbyte (128 + (n / 64) mod 64); nbyte (128 + n mod 64)]%N.

(** [parse_str] after the opening quote, with [parse_escape]; [acc] is
    the decoded string so far, reversed.  Returns the string and the input
    after the closing quote. *)
Fixpoint parse_str_aux (s acc : bytes) : result (bytes * bytes) json_error :=
  match s with
  | [] => Err EofWhileParsingString
  | c :: s1 =>
      if is_byte 34 c then Ok (rev acc, s1)
      else if is_byte 92 c then
        match s1 with
        | [] => Err EofWhileParsingString
        | e :: s2 =>
            if is_byte 34 e then parse_str_aux s2 (byte 34 :: acc)
            else if is_byte 92 e then parse_str_aux s2 (byte 92 :: acc)
            else if is_byte 47 e then parse_str_aux s2 (byte 47 :: acc)
            else if is_byte 98 e then parse_str_aux s2 (byte 8 :: acc)
            else if is_byte 102 e then parse_str_aux s2 (byte 12 :: acc)
            else if is_byte 110 e then parse_str_aux s2 (byte 10 :: acc)
            else if is_byte 114 e then parse_str_aux s2 (byte 13 :: acc)
            else if is_byte 116 e then parse_str_aux s2 (byte 9 :: acc)
            else if is_byte 117 e then
              match s2 with
              | h1 :: h2 :: h3 :: h4 :: s3 =>
                  match hex4 h1 h2 h3 h4 with
                  | None => Err InvalidEscape
                  | Some n1 =>
                      if (56320 <=? n1)%N && (n1 <=? 57343)%N then Err LoneLeadingSurrogateInHexEscape
                      else if (55296 <=? n1)%N && (n1 <=? 56319)%N then
                        match s3 with
                        | [] => Err EofWhileParsingString
                        | b :: s4 =>
                            if negb (is_byte 92 b) then Err UnexpectedEndOfHexEscape
                            else match s4 with
                                 | [] => Err EofWhileParsingString
                                 | u :: s5 =>
                                     if negb (is_byte 117 u) then Err UnexpectedEndOfHexEscape
                                     else match s5 with
                                          | g1 :: g2 :: g3 :: g4 :: s6 =>
                                              match hex4 g1 g2 g3 g4 with
                                              | None => Err InvalidEscape
                                              | Some n2 =>
                                                  if (n2 <? 56320)%N || (57343 <? n2)%N
                                                  then Err LoneLeadingSurrogateInHexEscape
                                                  else parse_str_aux s6
                                                         (rev (utf8_encode
                                                                 ((n1 - 55296) * 1024 + (n2 - 56320) + 65536)%N)
                                                          ++ acc)
                                              end
                                          | _ => Err EofWhileParsingString
                                          end
                                 end
                        end
                      else parse_str_aux s3 (rev (utf8_encode n1) ++ acc)
                  end
              | _ => Err EofWhileParsingString
              end
            else Err InvalidEscape
        end
      else if bval c <? 32 then Err ControlCharacterWhileParsingString
      else parse_str_aux s1 (c :: acc)
  end.

Definition parse_str (s : bytes) : result (bytes * bytes) json_error := parse_str_aux s [].

(** Byte-wise order of Rust's [String]. *)
Fixpoint bytes_compare (a b : bytes) : comparison :=
  match a, b with
  | [], [] => Eq
  | [], _ :: _ => Lt
  | _ :: _, [] => Gt
  | x :: a', y :: b' =>
      match Nat.compare (bval x) (bval y) with
      | Eq => bytes_compare a' b'
      | c => c
      end
  end.

(** [serde_json::Map] ([BTreeMap<String, Value>]) as a list sorted by
    key; [insert] keeps the key and replaces the value. *)
Fixpoint map_insert (k : bytes) (v : Value) (m : list (bytes * Value)) : list (bytes * Value) :=
  match m with
  | [] => [(k, v)]
  | (k', v') :: m' =>
      match bytes_compare k k' with
      | Lt => (k, v) :: m
      | Eq => (k', v) :: m'
      | Gt => (k', v') :: map_insert k v m'
      end
  end.

Definition map_from_entries (entries : list (bytes * Value)) : list (bytes * Value) :=
  fold_left (fun m kv => map_insert kv.1 kv.2 m) entries [].

(** [end_seq] *)
Definition end_seq (s : bytes) : result bytes json_error :=
  match skip_json_ws s with
  | [] => Err EofWhileParsingList
  | c :: s1 =>
      if is_byte 93 c then Ok s1
      else if is_byte 44 c then
        match skip_json_ws s1 with
        | d :: _ => if is_byte 93 d then Err TrailingComma else Err TrailingCharacters
        | [] => Err TrailingCharacters
        end
      else Err TrailingCharacters
  end.

(** [end_map] *)
Definition end_map (s : bytes) : result bytes json_error :=
  match skip_json_ws s with
  | [] => Err EofWhileParsingObject
  | c :: s1 =>
      if is_byte 125 c then Ok s1
      else if is_byte 44 c then
        match skip_json_ws s1 with
        | d :: _ => if is_byte 125 d then Err TrailingComma else Err TrailingCharacters
        | [] => Err TrailingCharacters
        end
      else Err TrailingCharacters
  end.

(** [parse_object_colon] *)
Definition parse_object_colon (s : bytes) : result bytes json_error :=
  match skip_json_ws s with
  | [] => Err EofWhileParsingObject
  | c :: s1 => if is_byte 58 c then Ok s1 else Err ExpectedColon
  end.

(** [deserialize_any] for [Value] ([parse_value]), with [SeqAccess] and
    [MapAccess].  [depth] is serde_json's [remaining_depth]: entering an
    array or an object decrements it and fails when it reaches 0
    ([check_recursion]).  [parse_seq] and [parse_members] return the
    elements in input order and the input positioned at the closing
    bracket, which [end_seq] / [end_map] consume. *)
Fixpoint parse_value (fuel depth : nat) (s : bytes) {struct fuel}
  : result (Value * bytes) json_error :=
  match fuel with
  | O => Err OutOfFuel
  | S fuel' =>
      match skip_json_ws s with
      | [] => Err EofWhileParsingValue
      | c :: s1 =>
          if is_byte 110 c then
            match parse_ident (lit "ull") s1 with Ok s2 => Ok (VNull, s2) | Err e => Err e end
          else if is_byte 116 c then
            match parse_ident (lit "rue") s1 with Ok s2 => Ok (VBool true, s2) | Err e => Err e end
          else if is_byte 102 c then
            match parse_ident (lit "alse") s1 with Ok s2 => Ok (VBool false, s2) | Err e => Err e end
          else if is_byte 45 c then parse_integer false s1
          else if is_digit c then parse_integer true (c :: s1)
          else if is_byte 34 c then
            match parse_str s1 with Ok (str, s2) => Ok (VString str, s2) | Err e => Err e end
          else if is_byte 91 c then
            if depth - 1 =? 0 then Err RecursionLimitExceeded
            else match parse_seq fuel' (depth - 1) true s1 [] with
                 | Ok (l, s2) =>
                     match end_seq s2 with Ok s3 => Ok (VArray l, s3) | Err e => Err e end
                 | Err e => Err e
                 end
          else if is_byte 123 c then
            if depth - 1 =? 0 then Err RecursionLimitExceeded
            else match parse_members fuel' (depth - 1) true s1 [] with
                 | Ok (entries, s2) =>
                     match end_map s2 with
                     | Ok s3 => Ok (VObject (map_from_entries entries), s3)
                     | Err e => Err e
                     end
                 | Err e => Err e
                 end
          else Err ExpectedSomeValue
      end
  end
with parse_seq (fuel depth : nat) (first : bool) (s : bytes) (acc : list Value) {struct fuel}
  : result (list Value * bytes) json_error :=
  match fuel with
  | O => Err OutOfFuel
  | S fuel' =>
      match skip_json_ws s with
      | [] => Err EofWhileParsingList
      | c :: s1 =>
          if is_byte 93 c then Ok (rev acc, c :: s1)
          else
            let next :=
              if is_byte 44 c && negb first then Ok (skip_json_ws s1)
              else if first then Ok (c :: s1)
              else Err ExpectedListCommaOrEnd in
            match next with
            | Err e => Err e
            | Ok [] => Err EofWhileParsingValue
            | Ok (d :: s2) =>
                if is_byte 93 d then Err TrailingComma
                else match parse_value fuel' depth (d :: s2) with
                     | Ok (v, s3) => parse_seq fuel' depth false s3 (v :: acc)
                     | Err e => Err e
                     end
            end
      end
  end
with parse_members (fuel depth : nat) (first : bool) (s : bytes) (acc : list (bytes * Value))
  {struct fuel} : result (list (bytes * Value) * bytes) json_error :=
  match fuel with
  | O => Err OutOfFuel
  | S fuel' =>
      match skip_json_ws s with
      | [] => Err EofWhileParsingObject
      | c :: s1 =>
          if is_byte 125 c then Ok (rev acc, c :: s1)
          else
            let next :=
              if is_byte 44 c && negb first then Ok (skip_json_ws s1)
              else if first then Ok (c :: s1)
              else Err ExpectedObjectCommaOrEnd in
            match next with
            | Err e => Err e
            | Ok [] => Err EofWhileParsingValue
            | Ok (d :: s2) =>
                if is_byte 34 d then
                  match parse_str s2 with
                  | Err e => Err e
                  | Ok (key, s3) =>
                      match parse_object_colon s3 with
                      | Err e => Err e
                      | Ok s4 =>
                          match parse_value fuel' depth s4 with
                          | Ok (v, s5) => parse_members fuel' depth false s5 ((key, v) :: acc)
                          | Err e => Err e
                          end
                      end
                  end
                else if is_byte 125 d then Err TrailingComma
                else Err KeyMustBeAString
            end
      end
  end.

(** The fuel given to the parser: each nested call consumes a byte of
    the input or follows one that did. *)
Definition json_fuel (s : bytes) : nat := S (S (2 * length s)).

(** [serde_json::from_str::<Value>] *)
Definition from_str_value (s : bytes) : result Value json_error :=
  match parse_value (json_fuel s) 128 s with
  | Ok (v, rest) =>
      match skip_json_ws rest with [] => Ok v | _ :: _ => Err TrailingCharacters end
  | Err e => Err e
  end.

(** [serde_json::from_str::<HashMap<String, Value>>]: [deserialize_map]
    (which requires an object, and enters it through [check_recursion]:
    128 - 1 = 127 levels remain), each entry inserted into the map in
    order, then [Deserializer::end]. *)
Definition from_str_map (s : bytes) : result (gmap bytes Value) json_error :=
  match skip_json_ws s with
  | [] => Err EofWhileParsingValue
  | c :: s1 =>
      if is_byte 123 c then
        match parse_members (json_fuel s) 127 true s1 [] with
        | Ok (entries, s2) =>
            match end_map s2 with
            | Ok s3 =>
                match skip_json_ws s3 with
                | [] => Ok (fold_left (fun m kv => <[kv.1 := kv.2]> m) entries ∅)
                | _ :: _ => Err TrailingCharacters
                end
            | Err e => Err e
            end
        | Err e => Err e
        end
      else Err InvalidType
  end.

(** ** Start-up, the listener loop, and the flush in [Drop for Storage] *)

(** An accepted connection: what its [read] returns, and whether writing
    the response to it succeeds. *)
Record Conn : Type := Conn_ {
  conn_read : result bytes io_error;
  conn_write_ok : bool
}.

Section Server.

(** [fs::read_to_string] of the response files ([get_success.html],
    [set_success.html], [404.html]). *)
Variable read_html : bytes -> result bytes io_error.

(** [fn send_response]: the bytes written to the stream. *)
Definition send_response (response : Response) (stream : Conn) : result bytes ServerError :=
  let '(status_line, filename, rv) :=
    match response with
    | GetSuccess val => (SUCCESS_STATUS, lit "get_success.html", Some val)
    | SetSuccess => (SUCCESS_STATUS, lit "set_success.html", None)
    | _ => (NOT_FOUND_STATUS, lit "404.html", None)
    end in
  match read_html filename with
  | Err _ => Err NoResponseFound
  | Ok contents =>
      let response :=
        match rv with
        | Some v => status_line ++ contents ++ v
        | None => status_line ++ contents
        end in
      if conn_write_ok stream then Ok response else Err (IoError IoOther)
  end.

(** The [for stream in listener.incoming()] loop over a finite sequence
    of accepts.  Returns the bytes written to each accepted connection (in
    order), the loop's result, and the store when the loop ends. *)
Fixpoint serve (incoming : list (result Conn io_error)) (storage : Storage)
  : list bytes * result unit ServerError * Storage :=
  match incoming with
  | [] => ([], Ok tt, storage)
  | Err e :: _ => ([], Err (IoError e), storage)
  | Ok stream :: rest =>
      match parse_request (conn_read stream) with
      | Ok request =>
          let '(response, storage') := handle_request request storage in
          match send_response response stream with
          | Ok out =>
              let '(outs, r, st) := serve rest storage' in (out :: outs, r, st)
          | Err err => ([[]], Err err, storage')
          end
      | Err InvalidRequest =>
          (* got an invalid request; skip it *)
          let '(outs, r, st) := serve rest storage in ([] :: outs, r, st)
      | Err err => ([[]], Err err, storage)
      end
  end.

(** The start of [fn server_init]: the snapshot is read with
    [fs::read_to_string(PERSIST)] (an error is returned with [?]), then
    deserialized by [de], an error giving [HashMap::new()]
    ([unwrap_or(HashMap::new())]). [de] stands for
    [serde_json::from_str]; [load_storage] instantiates it with the model
    [from_str_map]. *)
Definition load_storage_with {E : Type} (de : bytes -> result (gmap bytes Value) E)
    (persisted : result bytes io_error) : result Storage ServerError :=
  match persisted with
  | Err err => Err (IoError err)
  | Ok s =>
      Ok (Storage_ (match de s with Ok m => m | Err _ => ∅ end))
  end.

Definition load_storage : result bytes io_error -> result Storage ServerError :=
  load_storage_with from_str_map.

(** [Drop for Storage]: [serde_json::to_string(&self.0)], the map being
    iterated in the order [map_to_list]. *)
Definition storage_json (storage : Storage) : bytes :=
  map_to_string (map_to_list (storage0 storage)).

(** [fn server_init]: its result, and the snapshot text written when the
    [Storage] is dropped at the end of the function (None when no
    [Storage] was built). *)
Definition server_init (persisted : result bytes io_error) (bind_ok : bool)
    (incoming : list (result Conn io_error)) : result unit ServerError * option bytes :=
  match load_storage persisted with
  | Err e => (Err e, None)
  | Ok storage =>
      if bind_ok then
        let '(_, r, storage') := serve incoming storage in (r, Some (storage_json storage'))
      else (Err ConnectionError, Some (storage_json storage))
  end.

End Server.

(** ** Well-formed values, nesting depth and size *)

(** Object keys in strictly increasing [bytes_compare] order, the order
    of the [BTreeMap] inside [serde_json::Map]. *)
Fixpoint keys_sorted (m : list (bytes * Value)) : bool :=
  match m with
  | [] => true
  | (k, _) :: m' =>
      forallb (fun kv => match bytes_compare k kv.1 with Lt => true | _ => false end) m'
      && keys_sorted m'
  end.

(** A [Value] as serde_json builds it: numbers are a [u64] or a negative
    [i64], and objects are sorted by key. *)
Fixpoint value_wf (v : Value) : bool :=
  match v with
  | VNumber (PosInt n) => (n <=? U64_MAX)%N
  | VNumber (NegInt z) => (-9223372036854775808 <=? z)%Z && (z <? 0)%Z
  | VArray l => forallb value_wf l
  | VObject m => keys_sorted m && forallb (fun kv => value_wf kv.2) m
  | _ => true
  end.

(** Nesting depth: the number of arrays and objects around the deepest
    scalar. *)
Fixpoint value_depth (v : Value) : nat :=
  match v with
  | VArray l => S (list_max (List.map value_depth l))
  | VObject m => S (list_max (List.map (fun kv => value_depth kv.2) m))
  | _ => 0
  end.

Fixpoint value_size (v : Value) : nat :=
  match v with
  | VArray l => 2 + list_sum (List.map (fun x => S (value_size x)) l)
  | VObject m => 2 + list_sum (List.map (fun kv => S (value_size kv.2)) m)
  | _ => 1
  end.

(** What the parser returns at depth [d]: a well-formed value with at
    most [d - 1] arrays and objects around its deepest scalar. *)
Definition parsed_ok (d : nat) (v : Value) : Prop := value_wf v = true /\ value_depth v <= d - 1.

(** One [key:value] member as the serializer writes it. *)
Abbreviation entry_text :=
  (fun kv : bytes * Value => serialize_str kv.1 ++ byte 58 :: value_to_string kv.2).

(** What may follow a value inside the serializer's output. *)
Definition value_end (rest : bytes) : bool :=
  match rest with
  | [] => true
  | c :: _ => is_byte 44 c || is_byte 93 c || is_byte 125 c
  end.

(** ** Bytes of a request line *)

(** [str::contains] with a string pattern. *)
Fixpoint contains (s pat : bytes) : bool :=
  match s with
  | [] => starts_with pat []
  | c :: s' => starts_with pat s || contains s' pat
  end.

(** A byte that [str::split_whitespace] keeps inside a token: ASCII and
    not whitespace. *)
Definition key_byte (c : ascii) : bool := (bval c <? 128) && negb (is_whitespace [c]).
(** A byte that [String::from_utf8_lossy] keeps as it is and that does not
    end a line: ASCII and not LF. *)
Definition line_byte (c : ascii) : bool := (bval c <? 128) && negb (bval c =? 10).

Definition LF : ascii := byte 10.
Definition CR : ascii := byte 13.


(** * Properties *)

(** ** Lemmas on the JSON string encoding *)

(** One escaped byte is decoded back by [parse_str_aux]. *)
Lemma parse_str_aux_escape_byte (c : ascii) (t acc : bytes) :
  parse_str_aux (escape_byte c ++ t) acc = parse_str_aux t (c :: acc).
Proof.
  destruct c as [[] [] [] [] [] [] [] []]; reflexivity.
Qed.

Lemma parse_str_aux_escaped (s rest acc : bytes) :
  parse_str_aux (flat_map escape_byte s ++ QUOTE :: rest) acc = Ok (rev acc ++ s, rest).
Proof.
  revert acc. induction s as [|c s IH]; intros acc.
  - simpl. rewrite app_nil_r. reflexivity.
  - simpl. rewrite <- app_assoc, parse_str_aux_escape_byte, IH.
    simpl. rewrite <- app_assoc. reflexivity.
Qed.

(** The literal written by [serialize_str], read back by [parse_str]
    after its opening quote. *)
Lemma parse_str_serialize_str (s rest : bytes) :
  parse_str (tail (serialize_str s) ++ rest) = Ok (s, rest).
Proof.
  unfold parse_str, serialize_str. simpl.
  rewrite <- app_assoc. simpl. apply parse_str_aux_escaped.
Qed.

Lemma serialize_str_inj (s1 s2 : bytes) :
  serialize_str s1 = serialize_str s2 -> s1 = s2.
Proof.
  intros H.
  pose proof (parse_str_serialize_str s1 []) as H1.
  pose proof (parse_str_serialize_str s2 []) as H2.
  rewrite H in H1. rewrite H1 in H2. congruence.
Qed.

Lemma from_utf8_lossy_cons_nonempty (c : ascii) (s : bytes) :
  from_utf8_lossy (c :: s) <> [].
Proof.
  cbn [from_utf8_lossy].
  repeat (case_match; try discriminate); unfold replacement; simpl; discriminate.
Qed.

Lemma length_fill_buffer (data : bytes) : length (fill_buffer data) = BUFFER_SIZE.
Proof.
  unfold fill_buffer. rewrite length_take, length_app, length_replicate. lia.
Qed.

Lemma request_line_some (data : bytes) : exists line, request_line data = Some line.
Proof.
  unfold request_line.
  destruct (fill_buffer data) as [|c rest] eqn:Hb.
  { pose proof (length_fill_buffer data) as Hl. rewrite Hb in Hl. discriminate. }
  destruct (from_utf8_lossy (c :: rest)) as [|x r] eqn:Hd.
  { exfalso. exact (from_utf8_lossy_cons_nonempty c rest Hd). }
  eexists. reflexivity.
Qed.

(** ** C9: [NoRequestFound] is unreachable *)

(** C9. The lossy decoding of the 1024-byte buffer is never empty, so
    [lines().take(1).next()] always yields a first line and
    [parse_request] never fails with [NoRequestFound], whatever the read
    returned. *)
Theorem parse_request_never_no_request (read : result bytes io_error) :
  parse_request read <> Err NoRequestFound.
Proof.
  destruct read as [data|e]; [|discriminate].
  unfold parse_request.
  destruct (request_line_some data) as [line ->].
  repeat case_match; discriminate.
Qed.

(** ** C3: the empty key of a get request *)

Definition CRLF : bytes := [byte 13; byte 10].

(** C3 (code_bug). For the request line [GET /get?key= HTTP/1.1]
    ([parse_get] on the line, and [parse_request] on the bytes read),
    the code does not fail with [MissingKey]: [split_whitespace] skips the
    blank after [key=] and the protocol token [HTTP/1.1] is taken as the
    key. *)
Theorem parse_get_empty_key_takes_next_token :
  parse_get (lit "GET /get?key= HTTP/1.1") = Ok (lit "HTTP/1.1")
  /\ parse_request (Ok (lit "GET /get?key= HTTP/1.1" ++ CRLF ++ CRLF))
     = Ok (Get (lit "HTTP/1.1")).
Proof. split; vm_compute; reflexivity. Qed.

(** ** C1: set then get *)

Definition empty_storage : Storage := Storage_ ∅.

(** C1, as stated, fails: after [Set("a","b")], [Get("a")] carries the
    JSON literal ["b"] (with its quotes), not the string [b]. *)
Lemma set_then_get_not_verbatim :
  fst (handle_request (Get (lit "a")) (snd (handle_request (Set_ (lit "a") (lit "b")) empty_storage)))
  <> GetSuccess (lit "b").
Proof. vm_compute. discriminate. Qed.

(** C1 (amended). For every store, key [k] and value [v], [Set(k, v)]
    followed by [Get(k)] gives [GetSuccess] of the JSON string literal of
    [v] ([Value::String(v).to_string()]: [v] between double quotes, with
    serde_json's escapes), and that literal decodes back to exactly [v]. *)
Theorem set_then_get_json (st : Storage) (k v : bytes) :
  fst (handle_request (Get k) (snd (handle_request (Set_ k v) st))) = GetSuccess (serialize_str v)
  /\ parse_str (tail (serialize_str v)) = Ok (v, []).
Proof.
  split.
  - unfold handle_request; simpl.
    destruct (storage0 st !! k); simpl; rewrite lookup_insert_eq; reflexivity.
  - rewrite <- (app_nil_r (tail (serialize_str v))). apply parse_str_serialize_str.
Qed.

(** ** C4: last write wins *)

Lemma handle_set_storage (st : Storage) (k v : bytes) :
  snd (handle_request (Set_ k v) st) = Storage_ (<[k := VString v]> (storage0 st)).
Proof. unfold handle_request. destruct (storage0 st !! k); reflexivity. Qed.

(** C4. [Set(k, v1)], [Set(k, v2)], [Get(k)]: the store is the one a
    single [Set(k, v2)] gives (nothing of [v1] is kept), [Get(k)] returns
    the [GetSuccess] outcome of [v2], and, when [v1 <> v2], never the one
    of [v1]. *)
Theorem overwrite_last_write_wins (st : Storage) (k v1 v2 : bytes) :
  let st2 := snd (handle_request (Set_ k v2) (snd (handle_request (Set_ k v1) st))) in
  st2 = snd (handle_request (Set_ k v2) st)
  /\ handle_request (Get k) st2 = (GetSuccess (serialize_str v2), st2)
  /\ (v1 <> v2 -> fst (handle_request (Get k) st2) <> GetSuccess (serialize_str v1)).
Proof.
  cbv zeta. rewrite !handle_set_storage. cbn [storage0]. rewrite insert_insert_eq.
  split; [reflexivity|]. unfold handle_request; cbn [storage0]. rewrite lookup_insert_eq.
  cbn [value_to_string fst]. split; [reflexivity|].
  intros Hne Heq.
  assert (E : serialize_str v2 = serialize_str v1) by congruence.
  apply Hne. symmetry. apply serialize_str_inj. exact E.
Qed.

(** ** C8 and C10: reads, and what the store holds *)

(** Whether a request is a [Set] on key [k]. *)
Definition sets_key (k : bytes) (r : Request) : bool :=
  match r with
  | Set_ k' _ => bool_decide (k' = k)
  | Get _ => false
  end.

Lemma handle_all_cons (r : Request) (rs : list Request) (st : Storage) :
  snd (handle_all (r :: rs) st) = snd (handle_all rs (snd (handle_request r st))).
Proof.
  cbn [handle_all]. destruct (handle_request r st) as [resp st']. cbn [snd].
  destruct (handle_all rs st'). reflexivity.
Qed.

Lemma handle_get_storage (st : Storage) (k : bytes) :
  snd (handle_request (Get k) st) = st.
Proof. unfold handle_request. destruct (storage0 st !! k); reflexivity. Qed.

(** Requests that do not set [k] leave the entry of [k] as it was. *)
Lemma handle_all_other_keys (rs : list Request) (st : Storage) (k : bytes) :
  Forall (fun r => sets_key k r = false) rs ->
  storage0 (snd (handle_all rs st)) !! k = storage0 st !! k.
Proof.
  revert st. induction rs as [|r rs IH]; intros st Hrs; [reflexivity|].
  inversion Hrs as [|? ? Hr Hrs']; subst.
  rewrite handle_all_cons, IH by exact Hrs'.
  destruct r as [k'|k' v].
  - rewrite handle_get_storage. reflexivity.
  - rewrite handle_set_storage. cbn [storage0].
    cbn [sets_key] in Hr. apply bool_decide_eq_false in Hr.
    apply lookup_insert_ne. exact Hr.
Qed.

(** Every value of the store after a run of requests was in the initial
    store or was stored, as a JSON string, by one of the [Set]s. *)
Lemma handle_all_values (rs : list Request) (st : Storage) (k : bytes) (val : Value) :
  storage0 (snd (handle_all rs st)) !! k = Some val ->
  storage0 st !! k = Some val \/ exists s, val = VString s /\ In (Set_ k s) rs.
Proof.
  revert st. induction rs as [|r rs IH]; intros st H; [left; exact H|].
  rewrite handle_all_cons in H. apply IH in H as [H|[s [-> Hin]]].
  - destruct r as [k'|k' v].
    + rewrite handle_get_storage in H. left; exact H.
    + rewrite handle_set_storage in H. cbn [storage0] in H.
      destruct (decide (k' = k)) as [->|Hne].
      * rewrite lookup_insert_eq in H. injection H as <-.
        right. exists v. split; [reflexivity|left; reflexivity].
      * rewrite lookup_insert_ne in H by exact Hne. left; exact H.
  - right. exists s. split; [reflexivity|right; exact Hin].
Qed.

(** C8. A key absent from the initial (loaded) store and set by none of
    the requests applied since: [Get] of it returns [NotFound] and leaves
    the store as it is; and [Get] leaves every store unchanged, whatever
    the key. *)
Theorem get_unset_key_not_found (st0 : Storage) (rs : list Request) (k : bytes) :
  storage0 st0 !! k = None ->
  Forall (fun r => sets_key k r = false) rs ->
  handle_request (Get k) (snd (handle_all rs st0)) = (NotFound, snd (handle_all rs st0))
  /\ (forall (st : Storage) (k' : bytes), snd (handle_request (Get k') st) = st).
Proof.
  intros Habs Hrs. split.
  - unfold handle_request at 1. rewrite handle_all_other_keys by exact Hrs.
    rewrite Habs. reflexivity.
  - exact handle_get_storage.
Qed.

(** C10. [Set(k, v)] stores [Value::String(v)]; every value in the store
    after a run of requests is one of the initial store or the
    [Value::String] of a [Set]; and a [Get] of a key whose last [Set] had
    value [v] answers the JSON literal of [v]: a double quote, [v] with
    serde_json's escapes, a double quote. *)
Theorem store_holds_json_strings :
  (forall (st : Storage) (k v : bytes),
      storage0 (snd (handle_request (Set_ k v) st)) !! k = Some (VString v))
  /\ (forall (st : Storage) (rs : list Request) (k : bytes) (val : Value),
      storage0 (snd (handle_all rs st)) !! k = Some val ->
      storage0 st !! k = Some val \/ exists s, val = VString s /\ In (Set_ k s) rs)
  /\ (forall (st : Storage) (rs : list Request) (k v : bytes),
      Forall (fun r => sets_key k r = false) rs ->
      fst (handle_request (Get k) (snd (handle_all (Set_ k v :: rs) st)))
      = GetSuccess ([QUOTE] ++ flat_map escape_byte v ++ [QUOTE])).
Proof.
  split; [|split].
  - intros st k v. rewrite handle_set_storage. apply lookup_insert_eq.
  - intros st rs k val. apply handle_all_values.
  - intros st rs k v Hrs. unfold handle_request at 1.
    rewrite handle_all_cons, handle_all_other_keys by exact Hrs.
    rewrite handle_set_storage. cbn [storage0]. rewrite lookup_insert_eq.
    reflexivity.
Qed.

(** ** C6: unrecognized requests *)

(** C6. When the first line of a request starts with neither
    [GET /get?key=] nor [GET /set?], [parse_request] fails with
    [InvalidRequest], and the listener writes nothing to that connection
    and goes on with the next accepted connection, with the store
    unchanged. *)
Theorem unrecognized_request_skipped (read_html : bytes -> result bytes io_error)
    (stream : Conn) (rest : list (result Conn io_error)) (st : Storage) (data line : bytes) :
  conn_read stream = Ok data ->
  request_line data = Some line ->
  starts_with GET_HEADER line = false ->
  starts_with SET_HEADER line = false ->
  parse_request (conn_read stream) = Err InvalidRequest
  /\ serve read_html (Ok stream :: rest) st
     = (let '(outs, r, st') := serve read_html rest st in ([] :: outs, r, st')).
Proof.
  intros Hread Hline Hget Hset.
  assert (Hp : parse_request (conn_read stream) = Err InvalidRequest).
  { rewrite Hread. unfold parse_request. rewrite Hline, Hget, Hset. reflexivity. }
  split; [exact Hp|].
  cbn [serve]. rewrite Hp. reflexivity.
Qed.

(** ** C7: the key and value of a set request *)

Definition EQ : ascii := byte 61.

Lemma lit_eq : lit "=" = [EQ].
Proof. reflexivity. Qed.

Lemma split_aux_single_notin (e : ascii) (s cur : bytes) :
  e ∉ s -> split_aux [e] s cur 0 = [rev cur ++ s].
Proof.
  revert cur. induction s as [|c s IH]; intros cur Hn.
  - rewrite app_nil_r. reflexivity.
  - cbn [split_aux starts_with].
    destruct (ascii_dec e c) as [->|Hne]; [exfalso; apply Hn; left|].
    rewrite IH by (intros Hin; apply Hn; right; exact Hin).
    cbn [rev]. rewrite <- app_assoc. reflexivity.
Qed.

Lemma split_aux_single_at (e : ascii) (a b cur : bytes) :
  e ∉ a -> split_aux [e] (a ++ e :: b) cur 0 = (rev cur ++ a) :: split_aux [e] b [] 0.
Proof.
  revert cur. induction a as [|c a IH]; intros cur Hn.
  - cbn [app split_aux starts_with]. destruct (ascii_dec e e) as [_|]; [|congruence].
    rewrite app_nil_r. reflexivity.
  - cbn [app split_aux starts_with].
    destruct (ascii_dec e c) as [->|Hne]; [exfalso; apply Hn; left|].
    rewrite IH by (intros Hin; apply Hn; right; exact Hin).
    cbn [rev]. rewrite <- app_assoc. reflexivity.
Qed.

Lemma split_aux_nonempty (pat s cur : bytes) (skip : nat) : split_aux pat s cur skip <> [].
Proof.
  revert cur skip. induction s as [|c s IH]; intros cur skip; cbn [split_aux]; [discriminate|].
  destruct skip; [|apply IH]. destruct (starts_with pat (c :: s)); [discriminate|apply IH].
Qed.

(** Splitting on a single byte gives two segments exactly when the byte
    occurs once. *)
Lemma split_single_two (e : ascii) (tok k v : bytes) :
  split_aux [e] tok [] 0 = [k; v] <-> (tok = k ++ (e :: v) /\ (e ∉ k) /\ (e ∉ v)).
Proof.
  split.
  - intros H. destruct (decide (e ∈ tok)) as [Hin|Hn].
    + apply list_elem_of_split_l in Hin as (a & b & -> & Ha).
      rewrite split_aux_single_at in H by exact Ha. cbn [rev app] in H.
      injection H as <- Hb.
      destruct (decide (e ∈ b)) as [Hb'|Hb'].
      * apply list_elem_of_split_l in Hb' as (a' & b' & -> & Ha').
        rewrite split_aux_single_at in Hb by exact Ha'.
        injection Hb as _ Hb. destruct (split_aux_nonempty _ _ _ _ Hb).
      * rewrite split_aux_single_notin in Hb by exact Hb'. cbn in Hb.
        injection Hb as <-. auto.
    + rewrite split_aux_single_notin in H by exact Hn. discriminate.
  - intros (-> & Hk & Hv).
    rewrite split_aux_single_at by exact Hk. cbn [rev app].
    rewrite split_aux_single_notin by exact Hv. reflexivity.
Qed.

(** C7, as stated, fails: the token [a=b=c] is split at every ['='] and
    its three segments are rejected ([InvalidRequest { code: 3 }]); no
    [Set("a", "b=c")] comes out. *)
Lemma parse_set_two_equals_rejected :
  parse_set (lit "GET /set?a=b=c HTTP/1.1") <> Ok (lit "a", lit "b=c")
  /\ parse_request (Ok (lit "GET /set?a=b=c HTTP/1.1" ++ CRLF))
     = Err (ParseError_ (parse_error_to_string (InvalidRequest_ 3))).
Proof. split; vm_compute; [discriminate|reflexivity]. Qed.

(** C7 (amended). When the line splits on [set?] into two segments and
    [tok] is the first whitespace-delimited token of the second,
    [parse_set] yields [(k, v)] exactly when [tok] is [k=v] with no
    further ['='] in [k] or [v]: the token is split at every ['='] and
    must give exactly two segments.  So [GET /set?a= HTTP/1.1] gives
    [Set("a", "")], and [a=b=c] is rejected with code 3. *)
Theorem parse_set_splits_token_on_every_eq :
  (forall line pre rest tok k v : bytes,
      split line (lit "set?") = [pre; rest] ->
      split_whitespace_next rest = Some tok ->
      parse_set line = Ok (k, v) <-> (tok = k ++ (EQ :: v) /\ (EQ ∉ k) /\ (EQ ∉ v)))
  /\ parse_request (Ok (lit "GET /set?a= HTTP/1.1" ++ CRLF)) = Ok (Set_ (lit "a") [])
  /\ parse_set (lit "GET /set?a=b=c HTTP/1.1") = Err (InvalidRequest_ 3).
Proof.
  split; [|split; vm_compute; reflexivity].
  intros line pre rest tok k v Hsplit Htok.
  unfold parse_set. rewrite Hsplit, Htok.
  unfold split. rewrite lit_eq, <- split_single_two.
  destruct (split_aux [EQ] tok [] 0) as [|x [|y [|z l]]]; split; intros H;
    try discriminate; try congruence.
Qed.

(** ** C2: loading the snapshot at start-up *)

(** C2, as stated, fails: a snapshot file that cannot be read (here:
    missing) makes [server_init] return the I/O error before the
    listener is bound; no empty store is used. *)
Lemma missing_snapshot_aborts_startup :
  server_init (fun _ => Ok []) (Err IoNotFound) true [] = (Err (IoError IoNotFound), None).
Proof. reflexivity. Qed.

(** C2 (amended). If reading the snapshot file fails, [server_init]
    returns that I/O error (no store is built, nothing is served); if it
    is read, a store is always built, and contents the deserializer
    rejects give the empty store. Parts 2 and 3 hold for every
    deserializer [de] (so for [serde_json::from_str], whatever contents it
    rejects, floating-point ones included), in particular for the model
    [from_str_map] used by [load_storage]. *)
Theorem snapshot_load_behaviour :
  (forall (read_html : bytes -> result bytes io_error) (e : io_error) (bind_ok : bool)
          (incoming : list (result Conn io_error)),
      server_init read_html (Err e) bind_ok incoming = (Err (IoError e), None))
  /\ (forall (E : Type) (de : bytes -> result (gmap bytes Value) E) (s : bytes),
      exists m, load_storage_with de (Ok s) = Ok (Storage_ m))
  /\ (forall (E : Type) (de : bytes -> result (gmap bytes Value) E) (s : bytes) (e : E),
      de s = Err e -> load_storage_with de (Ok s) = Ok (Storage_ ∅)).
Proof.
  split; [|split].
  - reflexivity.
  - intros E de s. eexists. reflexivity.
  - intros E de s e He. unfold load_storage_with. rewrite He. reflexivity.
Qed.

(** ** The snapshot round trip *)

(** ** Decimal numbers read back *)

Definition digits_value (acc : N) (ds : bytes) : N :=
  fold_left (fun a c => a * 10 + digit_val c)%N ds acc.

Lemma bval_byte (n : nat) : n < 256 -> bval (byte n) = n.
Proof. intros H. unfold bval, byte. apply nat_ascii_embedding. exact H. Qed.

Lemma digit_char_spec (d : N) :
  (d < 10)%N -> is_digit (digit_char d) = true /\ digit_val (digit_char d) = d
                /\ is_byte 48 (digit_char d) = (d =? 0)%N.
Proof.
  intros Hd. unfold is_digit, digit_val, is_byte, digit_char.
  rewrite bval_byte by lia.
  repeat split.
  - apply andb_true_intro; split; apply Nat.leb_le; lia.
  - rewrite Nat.add_comm, Nat.add_sub. apply N2Nat.id.
  - destruct (N.eqb_spec d 0); apply Nat.eqb_eq || apply Nat.eqb_neq; lia.
Qed.

Lemma digits_value_app (acc : N) (ds ds' : bytes) :
  digits_value acc (ds ++ ds') = digits_value (digits_value acc ds) ds'.
Proof. unfold digits_value. apply fold_left_app. Qed.

Lemma decimal_aux_spec (f : nat) :
  forall n acc, (n < 10 ^ N.of_nat (S f))%N ->
  exists ds c ds', decimal_aux (S f) n acc = ds ++ acc /\ ds = c :: ds'
    /\ Forall (fun x => is_digit x = true) ds /\ digits_value 0 ds = n
    /\ is_byte 48 c = (n =? 0)%N.
Proof.
  induction f as [|f IH]; intros n acc Hn.
  - assert (Hn' : (n < 10)%N) by (simpl in Hn; lia).
    cbn [decimal_aux]. destruct (N.ltb_spec n 10); [|lia].
    rewrite N.mod_small by lia.
    destruct (digit_char_spec n Hn') as (H1 & H2 & H3).
    exists [digit_char n], (digit_char n), [].
    repeat split; auto; unfold digits_value; simpl; rewrite ?H2; lia.
  - assert (E : decimal_aux (S (S f)) n acc =
              if (n <? 10)%N then digit_char (n mod 10) :: acc
              else decimal_aux (S f) (n / 10) (digit_char (n mod 10) :: acc)) by reflexivity.
    rewrite E. destruct (N.ltb_spec n 10).
    + rewrite N.mod_small by lia.
      destruct (digit_char_spec n ltac:(lia)) as (H1 & H2 & H3).
      exists [digit_char n], (digit_char n), [].
      repeat split; auto; unfold digits_value; simpl; rewrite ?H2; lia.
    + assert (Hq : (n / 10 < 10 ^ N.of_nat (S f))%N).
      { apply N.Div0.div_lt_upper_bound.
        rewrite Nat2N.inj_succ, N.pow_succ_r' in Hn. lia. }
      destruct (IH (n / 10)%N (digit_char (n mod 10) :: acc) Hq)
        as (ds & c & ds' & Heq & Hc & Hall & Hval & H48).
      assert (Hm : (n mod 10 < 10)%N) by (apply N.mod_lt; discriminate).
      destruct (digit_char_spec (n mod 10)%N Hm)
        as (H1 & H2 & H3).
      exists (ds ++ [digit_char (n mod 10)]), c, (ds' ++ [digit_char (n mod 10)]).
      repeat split.
      * rewrite Heq, <- app_assoc. reflexivity.
      * rewrite Hc. reflexivity.
      * apply Forall_app. split; auto.
      * rewrite digits_value_app, Hval. unfold digits_value. simpl.
        rewrite H2. pose proof (N.div_mod n 10). lia.
      * rewrite H48. destruct (N.eqb_spec (n / 10) 0), (N.eqb_spec n 0); try reflexivity.
        -- pose proof (N.div_mod n 10). lia.
        -- subst. lia.
Qed.

Lemma pos_size_nat_bound (p : positive) : (N.pos p < 2 ^ N.of_nat (Pos.size_nat p))%N.
Proof.
  induction p as [p IH|p IH|]; cbn [Pos.size_nat];
    rewrite ?Nat2N.inj_succ, ?N.pow_succ_r'; lia.
Qed.

Lemma size_nat_bound (n : N) : (n < 10 ^ N.of_nat (S (N.size_nat n)))%N.
Proof.
  destruct n as [|p]; [simpl; lia|].
  pose proof (pos_size_nat_bound p) as H.
  cbn [N.size_nat]. rewrite Nat2N.inj_succ.
  apply (N.lt_le_trans _ (2 ^ N.of_nat (Pos.size_nat p))); [exact H|].
  apply (N.le_trans _ (10 ^ N.of_nat (Pos.size_nat p))).
  - apply N.pow_le_mono_l. lia.
  - apply N.pow_le_mono_r; lia.
Qed.

Lemma decimal_spec (n : N) :
  exists c ds', decimal n = c :: ds'
    /\ Forall (fun x => is_digit x = true) (c :: ds') /\ digits_value 0 (c :: ds') = n
    /\ is_byte 48 c = (n =? 0)%N.
Proof.
  unfold decimal.
  destruct (decimal_aux_spec (N.size_nat n) n [] (size_nat_bound n))
    as (ds & c & ds' & Heq & -> & Hall & Hval & H48).
  exists c, ds'. rewrite Heq, app_nil_r. auto.
Qed.

Lemma digits_value_ge (acc : N) (ds : bytes) : (acc <= digits_value acc ds)%N.
Proof.
  revert acc. induction ds as [|c ds IH]; intros acc; [reflexivity|].
  unfold digits_value in *. simpl. specialize (IH (acc * 10 + digit_val c)%N). lia.
Qed.

Lemma value_end_head (c : ascii) (r : bytes) :
  value_end (c :: r) = true -> bval c = 44 \/ bval c = 93 \/ bval c = 125.
Proof.
  unfold value_end, is_byte. intros H.
  repeat rewrite orb_true_iff in H. rewrite !Nat.eqb_eq in H. tauto.
Qed.

Lemma value_end_not_digit (rest : bytes) :
  value_end rest = true -> forall c r, rest = c :: r -> is_digit c = false.
Proof.
  intros H c r ->. unfold is_digit.
  destruct (value_end_head c r H) as [E|[E|E]]; rewrite E; reflexivity.
Qed.

Lemma parse_number_end (positive : bool) (n : N) (rest : bytes) :
  value_end rest = true ->
  parse_number positive n rest =
    if positive then Ok (VNumber (PosInt n), rest)
    else if (1 <=? n)%N && (n <=? 9223372036854775808)%N
    then Ok (VNumber (NegInt (- Z.of_N n)), rest)
    else Err FloatNotModelled.
Proof.
  intros H. destruct rest as [|c r]; [reflexivity|].
  unfold parse_number, is_byte.
  destruct (value_end_head c r H) as [E|[E|E]]; rewrite E; reflexivity.
Qed.

Lemma parse_digits_spec (positive : bool) (ds : bytes) :
  forall acc rest, Forall (fun x => is_digit x = true) ds ->
  (forall c r, rest = c :: r -> is_digit c = false) ->
  (digits_value acc ds <= U64_MAX)%N ->
  parse_digits positive acc (ds ++ rest) = parse_number positive (digits_value acc ds) rest.
Proof.
  induction ds as [|c ds IH]; intros acc rest Hall Hrest Hmax.
  - destruct rest as [|c r]; [reflexivity|].
    cbn [app parse_digits]. rewrite (Hrest c r eq_refl). reflexivity.
  - inversion Hall as [|? ? Hc Hds]; subst.
    cbn [app parse_digits]. rewrite Hc.
    pose proof (digits_value_ge (acc * 10 + digit_val c)%N ds) as Hge.
    unfold digits_value in Hmax, Hge. cbn [fold_left] in Hmax.
    destruct (N.ltb_spec U64_MAX (acc * 10 + digit_val c)%N); [lia|].
    apply IH; auto.
Qed.

Lemma decimal_zero : decimal 0 = [byte 48].
Proof. reflexivity. Qed.

Lemma parse_integer_decimal (positive : bool) (n : N) (rest : bytes) :
  value_end rest = true -> (n <= U64_MAX)%N ->
  parse_integer positive (decimal n ++ rest) = parse_number positive n rest.
Proof.
  intros Hend Hmax.
  destruct (N.eqb_spec n 0) as [->|Hn].
  - rewrite decimal_zero. cbn [app parse_integer].
    destruct rest as [|c r]; [reflexivity|].
    change (is_byte 48 (byte 48)) with true. cbv iota beta.
    rewrite (value_end_not_digit _ Hend c r eq_refl). reflexivity.
  - destruct (decimal_spec n) as (c & ds' & -> & Hall & Hval & H48).
    cbn [app parse_integer].
    rewrite H48. destruct (N.eqb_spec n 0); [contradiction|].
    inversion Hall as [|? ? Hc Hds]; subst. rewrite Hc.
    unfold digits_value in *. cbn [fold_left] in *.
    rewrite N.mul_0_l, N.add_0_l in *.
    rewrite parse_digits_spec; auto.
    apply value_end_not_digit; exact Hend.
Qed.

(** ** A structural induction principle for nested values *)

Section Value_induction.
Variable P : Value -> Prop.
Hypothesis H_null : P VNull.
Hypothesis H_bool : forall b, P (VBool b).
Hypothesis H_number : forall n, P (VNumber n).
Hypothesis H_string : forall s, P (VString s).
Hypothesis H_array : forall l, Forall P l -> P (VArray l).
Hypothesis H_object : forall m, Forall (fun kv => P kv.2) m -> P (VObject m).

Fixpoint value_ind' (v : Value) : P v :=
  match v with
  | VNull => H_null
  | VBool b => H_bool b
  | VNumber n => H_number n
  | VString s => H_string s
  | VArray l =>
      H_array l ((fix go (l : list Value) : Forall P l :=
                    match l with
                    | [] => List.Forall_nil _
                    | x :: l' => List.Forall_cons _ x l' (value_ind' x) (go l')
                    end) l)
  | VObject m =>
      H_object m ((fix go (m : list (bytes * Value)) : Forall (fun kv => P kv.2) m :=
                     match m with
                     | [] => List.Forall_nil _
                     | kv :: m' => List.Forall_cons _ kv m' (value_ind' kv.2) (go m')
                     end) m)
  end.
End Value_induction.

Lemma digit_head (c : ascii) :
  is_digit c = true ->
  (forall r, skip_json_ws (c :: r) = c :: r) /\ is_byte 93 c = false /\ is_byte 125 c = false.
Proof.
  unfold is_digit. intros H. apply andb_true_iff in H as [H1 H2].
  apply Nat.leb_le in H1. apply Nat.leb_le in H2.
  unfold is_byte.
  assert (E : forall k, (k < 48 \/ 57 < k) -> (bval c =? k) = false)
    by (intros k Hk; apply Nat.eqb_neq; lia).
  repeat split; [|apply E; lia|apply E; lia].
  intros r. cbn [skip_json_ws]. unfold is_byte.
  rewrite !E by lia. reflexivity.
Qed.

Lemma value_to_string_head (v : Value) :
  exists c s, value_to_string v = c :: s
    /\ (forall r, skip_json_ws (c :: r) = c :: r) /\ is_byte 93 c = false /\ is_byte 125 c = false.
Proof.
  destruct v as [| [] |[n|z]|s|l|m].
  all: try (eexists _, _; split; [reflexivity|]; repeat split; reflexivity).
  destruct (decimal_spec n) as (c & ds' & Hd & Hall & _).
  inversion Hall; subst.
  exists c, ds'. split; [exact Hd|]. apply digit_head; assumption.
Qed.

Lemma parse_seq_comma_step (f d : nat) (c : ascii) (s : bytes) (acc : list Value) :
  (forall r, skip_json_ws (c :: r) = c :: r) -> is_byte 93 c = false ->
  parse_seq (S f) d false (byte 44 :: c :: s) acc =
  match parse_value f d (c :: s) with
  | Ok (v, s3) => parse_seq f d false s3 (v :: acc)
  | Err e => Err e
  end.
Proof.
  intros Hws H93. cbn [parse_seq].
  change (skip_json_ws (byte 44 :: c :: s)) with (byte 44 :: c :: s).
  cbn [negb andb]. rewrite Hws.
  replace (is_byte 93 (byte 44)) with false by reflexivity.
  replace (is_byte 44 (byte 44) && true) with true by reflexivity.
  rewrite H93. reflexivity.
Qed.

Lemma parse_seq_first_step (f d : nat) (c : ascii) (s : bytes) :
  (forall r, skip_json_ws (c :: r) = c :: r) -> is_byte 93 c = false ->
  parse_seq (S f) d true (c :: s) [] =
  match parse_value f d (c :: s) with
  | Ok (v, s3) => parse_seq f d false s3 [v]
  | Err e => Err e
  end.
Proof.
  intros Hws H93. cbn [parse_seq]. rewrite Hws, H93.
  cbn [negb andb]. rewrite andb_false_r. rewrite H93. reflexivity.
Qed.

Lemma parse_seq_close (f d : nat) (first : bool) (rest : bytes) (acc : list Value) :
  parse_seq (S f) d first (byte 93 :: rest) acc = Ok (rev acc, byte 93 :: rest).
Proof. reflexivity. Qed.

Lemma parse_members_comma_step (f d : nat) (s : bytes) (acc : list (bytes * Value)) :
  parse_members (S f) d false (byte 44 :: QUOTE :: s) acc =
  match parse_str s with
  | Err e => Err e
  | Ok (key, s3) =>
      match parse_object_colon s3 with
      | Err e => Err e
      | Ok s4 =>
          match parse_value f d s4 with
          | Ok (v, s5) => parse_members f d false s5 ((key, v) :: acc)
          | Err e => Err e
          end
      end
  end.
Proof. reflexivity. Qed.

Lemma parse_members_first_step (f d : nat) (s : bytes) :
  parse_members (S f) d true (QUOTE :: s) [] =
  match parse_str s with
  | Err e => Err e
  | Ok (key, s3) =>
      match parse_object_colon s3 with
      | Err e => Err e
      | Ok s4 =>
          match parse_value f d s4 with
          | Ok (v, s5) => parse_members f d false s5 [(key, v)]
          | Err e => Err e
          end
      end
  end.
Proof. reflexivity. Qed.

Lemma parse_members_close (f d : nat) (first : bool) (rest : bytes) (acc : list (bytes * Value)) :
  parse_members (S f) d first (byte 125 :: rest) acc = Ok (rev acc, byte 125 :: rest).
Proof. reflexivity. Qed.

Lemma parse_value_bracket (f d : nat) (s : bytes) :
  parse_value (S f) d (byte 91 :: s) =
  if d - 1 =? 0 then Err RecursionLimitExceeded
  else match parse_seq f (d - 1) true s [] with
       | Ok (l, s2) => match end_seq s2 with Ok s3 => Ok (VArray l, s3) | Err e => Err e end
       | Err e => Err e
       end.
Proof. reflexivity. Qed.

Lemma parse_value_brace (f d : nat) (s : bytes) :
  parse_value (S f) d (byte 123 :: s) =
  if d - 1 =? 0 then Err RecursionLimitExceeded
  else match parse_members f (d - 1) true s [] with
       | Ok (entries, s2) =>
           match end_map s2 with
           | Ok s3 => Ok (VObject (map_from_entries entries), s3)
           | Err e => Err e
           end
       | Err e => Err e
       end.
Proof. reflexivity. Qed.

Lemma join_comma_cons (x : bytes) (xs : list bytes) :
  join_comma (x :: xs) = x ++ flat_map (fun y => byte 44 :: y) xs.
Proof.
  revert x. induction xs as [|y xs IH]; intros x.
  - simpl. rewrite app_nil_r. reflexivity.
  - change (join_comma (x :: y :: xs)) with (x ++ byte 44 :: join_comma (y :: xs)).
    rewrite IH. reflexivity.
Qed.

Lemma value_end_comma_list (A : Type) (g : A -> bytes) (l : list A) (b : ascii) (rest : bytes) :
  (b = byte 93 \/ b = byte 125) ->
  value_end (flat_map (fun y => byte 44 :: y) (List.map g l) ++ b :: rest) = true.
Proof. intros [-> | ->]; destruct l; reflexivity. Qed.

Lemma serialize_str_cons (k : bytes) :
  serialize_str k = QUOTE :: flat_map escape_byte k ++ [QUOTE].
Proof. reflexivity. Qed.

Lemma list_sum_cons' (x : nat) (l : list nat) : list_sum (x :: l) = x + list_sum l.
Proof. reflexivity. Qed.

Lemma parse_object_colon_colon (s : bytes) : parse_object_colon (byte 58 :: s) = Ok s.
Proof. reflexivity. Qed.

Lemma parse_seq_tail (d : nat) (l : list Value) :
  forall f acc rest,
  Forall (fun v => forall f' rest', value_size v < f' -> value_end rest' = true ->
                   parse_value f' d (value_to_string v ++ rest') = Ok (v, rest')) l ->
  list_sum (List.map (fun x => S (value_size x)) l) < f ->
  parse_seq f d false (flat_map (fun y => byte 44 :: y) (List.map value_to_string l) ++ byte 93 :: rest) acc
  = Ok (rev acc ++ l, byte 93 :: rest).
Proof.
  induction l as [|v l IH]; intros f acc rest Hall Hf;
    (destruct f as [|f]; [simpl in Hf; lia|]).
  - cbn [List.map flat_map app]. rewrite app_nil_r. apply parse_seq_close.
  - inversion Hall as [|? ? Hv Hl]; subst.
    cbn [List.map flat_map] in *. rewrite list_sum_cons' in Hf.
    destruct (value_to_string_head v) as (c & s & Hvs & Hws & H93 & _).
    rewrite <- app_assoc, Hvs. cbn [app].
    rewrite parse_seq_comma_step by assumption.
    specialize (Hv f (flat_map (fun y => byte 44 :: y) (List.map value_to_string l) ++ byte 93 :: rest)).
    rewrite Hvs in Hv. cbn [app] in Hv. rewrite Hv.
    + rewrite IH by (auto; lia). cbn [rev]. rewrite <- app_assoc. reflexivity.
    + lia.
    + apply value_end_comma_list. auto.
Qed.

Lemma parse_seq_all (d : nat) (l : list Value) (f : nat) (rest : bytes) :
  Forall (fun v => forall f' rest', value_size v < f' -> value_end rest' = true ->
                   parse_value f' d (value_to_string v ++ rest') = Ok (v, rest')) l ->
  list_sum (List.map (fun x => S (value_size x)) l) < f ->
  parse_seq f d true (join_comma (List.map value_to_string l) ++ byte 93 :: rest) []
  = Ok (l, byte 93 :: rest).
Proof.
  intros Hall Hf. destruct f as [|f]; [lia|].
  destruct l as [|v l]; [apply parse_seq_close|].
  inversion Hall as [|? ? Hv Hl]; subst.
  cbn [List.map] in *. rewrite list_sum_cons' in Hf. rewrite join_comma_cons.
  destruct (value_to_string_head v) as (c & s & Hvs & Hws & H93 & _).
  rewrite <- app_assoc, Hvs. cbn [app].
  rewrite parse_seq_first_step by assumption.
  specialize (Hv f (flat_map (fun y => byte 44 :: y) (List.map value_to_string l) ++ byte 93 :: rest)).
  rewrite Hvs in Hv. cbn [app] in Hv. rewrite Hv.
  - rewrite parse_seq_tail by (auto; lia). reflexivity.
  - lia.
  - apply value_end_comma_list. auto.
Qed.

Lemma parse_members_tail (d : nat) (m : list (bytes * Value)) :
  forall f acc rest,
  Forall (fun kv => forall f' rest', value_size kv.2 < f' -> value_end rest' = true ->
                    parse_value f' d (value_to_string kv.2 ++ rest') = Ok (kv.2, rest')) m ->
  list_sum (List.map (fun kv => S (value_size kv.2)) m) < f ->
  parse_members f d false (flat_map (fun y => byte 44 :: y) (List.map entry_text m) ++ byte 125 :: rest) acc
  = Ok (rev acc ++ m, byte 125 :: rest).
Proof.
  induction m as [|[k v] m IH]; intros f acc rest Hall Hf;
    (destruct f as [|f]; [simpl in Hf; lia|]).
  - cbn [List.map flat_map app]. rewrite app_nil_r. apply parse_members_close.
  - inversion Hall as [|? ? Hv Hl]; subst.
    cbn [List.map flat_map fst snd] in *. rewrite list_sum_cons' in Hf.
    rewrite serialize_str_cons. rewrite <- !app_assoc. cbn [app].
    rewrite parse_members_comma_step. unfold parse_str.
    rewrite <- !app_assoc. cbn [app].
    rewrite parse_str_aux_escaped. cbn [rev app].
    rewrite parse_object_colon_colon. cbv beta iota.
    rewrite Hv.
    + rewrite IH by (auto; lia). cbn [rev]. rewrite <- app_assoc. reflexivity.
    + lia.
    + apply value_end_comma_list. auto.
Qed.

Lemma parse_members_all (d : nat) (m : list (bytes * Value)) (f : nat) (rest : bytes) :
  Forall (fun kv => forall f' rest', value_size kv.2 < f' -> value_end rest' = true ->
                    parse_value f' d (value_to_string kv.2 ++ rest') = Ok (kv.2, rest')) m ->
  list_sum (List.map (fun kv => S (value_size kv.2)) m) < f ->
  parse_members f d true (join_comma (List.map entry_text m) ++ byte 125 :: rest) []
  = Ok (m, byte 125 :: rest).
Proof.
  intros Hall Hf. destruct f as [|f]; [lia|].
  destruct m as [|[k v] m]; [apply parse_members_close|].
  inversion Hall as [|? ? Hv Hl]; subst.
  cbn [List.map fst snd] in *. rewrite list_sum_cons' in Hf. rewrite join_comma_cons.
  cbn [fst snd]. rewrite serialize_str_cons. rewrite <- !app_assoc. cbn [app].
  rewrite parse_members_first_step. unfold parse_str.
  rewrite <- !app_assoc. cbn [app].
  rewrite parse_str_aux_escaped. cbn [rev app].
  rewrite parse_object_colon_colon. cbv beta iota.
  rewrite Hv.
  - rewrite parse_members_tail by (auto; lia). reflexivity.
  - lia.
  - apply value_end_comma_list. auto.
Qed.

Lemma bytes_compare_antisym (a b : bytes) : bytes_compare b a = CompOpp (bytes_compare a b).
Proof.
  revert b. induction a as [|x a IH]; intros [|y b]; try reflexivity.
  cbn [bytes_compare]. rewrite (Nat.compare_antisym (bval x) (bval y)).
  destruct (Nat.compare (bval x) (bval y)); cbn [CompOpp]; auto.
Qed.

Lemma map_insert_last (k : bytes) (v : Value) (acc : list (bytes * Value)) :
  (forall kv, In kv acc -> bytes_compare kv.1 k = Lt) ->
  map_insert k v acc = acc ++ [(k, v)].
Proof.
  induction acc as [|[k' v'] acc IH]; intros H; [reflexivity|].
  cbn [map_insert]. rewrite bytes_compare_antisym.
  pose proof (H (k', v') (or_introl eq_refl)) as Hk. cbn [fst] in Hk.
  rewrite Hk. cbn [CompOpp]. rewrite IH; [reflexivity|]. intros kv Hkv. apply H. right. exact Hkv.
Qed.

Lemma fold_map_insert_sorted (m : list (bytes * Value)) :
  forall acc, keys_sorted m = true ->
  (forall kv kv', In kv acc -> In kv' m -> bytes_compare kv.1 kv'.1 = Lt) ->
  fold_left (fun m kv => map_insert kv.1 kv.2 m) m acc = acc ++ m.
Proof.
  induction m as [|[k v] m IH]; intros acc Hs H.
  - rewrite app_nil_r. reflexivity.
  - cbn [keys_sorted] in Hs. apply andb_true_iff in Hs as [Hk Hs].
    rewrite forallb_forall in Hk.
    cbn [fold_left fst snd]. rewrite map_insert_last.
    + rewrite IH; [rewrite <- app_assoc; reflexivity|exact Hs|].
      intros kv kv' Hkv Hkv'. apply in_app_iff in Hkv as [Hkv|[<-|[]]].
      * apply H; [exact Hkv|right; exact Hkv'].
      * specialize (Hk kv' Hkv'). cbn [fst]. destruct (bytes_compare k kv'.1); congruence.
    + intros kv Hkv. apply (H kv (k, v) Hkv). left. reflexivity.
Qed.

Lemma map_from_entries_sorted (m : list (bytes * Value)) :
  keys_sorted m = true -> map_from_entries m = m.
Proof.
  intros Hs. unfold map_from_entries.
  rewrite fold_map_insert_sorted; [reflexivity|exact Hs|]. intros kv kv' [].
Qed.

Lemma parse_value_digit (f d : nat) (c : ascii) (s : bytes) :
  is_digit c = true -> parse_value (S f) d (c :: s) = parse_integer true (c :: s).
Proof.
  destruct c as [[] [] [] [] [] [] [] []]; intros H; try discriminate H; reflexivity.
Qed.

Lemma parse_value_minus (f d : nat) (s : bytes) :
  parse_value (S f) d (byte 45 :: s) = parse_integer false s.
Proof. reflexivity. Qed.

Lemma parse_value_quote (f d : nat) (s : bytes) :
  parse_value (S f) d (QUOTE :: s) =
  match parse_str s with Ok (str, s2) => Ok (VString str, s2) | Err e => Err e end.
Proof. reflexivity. Qed.

Lemma in_list_max (A : Type) (g : A -> nat) (l : list A) (x : A) :
  In x l -> g x <= list_max (List.map g l).
Proof.
  intros Hx. pose proof (proj1 (list_max_le (List.map g l) _) (le_n _)) as H.
  rewrite List.Forall_forall in H. apply H, in_map, Hx.
Qed.

Lemma parse_value_to_string (v : Value) :
  forall f d rest, value_wf v = true -> value_depth v < d -> value_size v < f ->
  value_end rest = true -> parse_value f d (value_to_string v ++ rest) = Ok (v, rest).
Proof.
  induction v as [| b |[n|z]| s | l IH | m IH] using value_ind';
    intros f d rest Hwf Hd Hf Hend; (destruct f as [|f]; [cbn [value_size] in Hf; lia|]).
  - reflexivity.
  - destruct b; reflexivity.
  - cbn [value_wf] in Hwf. apply N.leb_le in Hwf.
    cbn [value_to_string serialize_number].
    destruct (decimal_spec n) as (c & ds' & Hdn & Hall & _).
    inversion Hall as [|? ? Hc _]; subst.
    rewrite Hdn. cbn [app]. rewrite parse_value_digit by exact Hc.
    change (c :: ds' ++ rest) with ((c :: ds') ++ rest). rewrite <- Hdn.
    rewrite parse_integer_decimal, parse_number_end by assumption. reflexivity.
  - cbn [value_wf] in Hwf. apply andb_true_iff in Hwf as [H1 H2].
    apply Z.leb_le in H1. apply Z.ltb_lt in H2.
    assert (Em : (Z.of_N (Z.to_N (- z)) = - z)%Z) by (apply Z2N.id; lia).
    cbn [value_to_string serialize_number app]. rewrite parse_value_minus.
    rewrite parse_integer_decimal, parse_number_end by (auto; unfold U64_MAX; lia).
    replace ((1 <=? Z.to_N (- z)%Z)%N && (Z.to_N (- z)%Z <=? 9223372036854775808)%N) with true
      by (symmetry; apply andb_true_iff; split; apply N.leb_le; lia).
    rewrite Em, Z.opp_involutive. reflexivity.
  - cbn [value_to_string]. rewrite serialize_str_cons. cbn [app].
    rewrite parse_value_quote. unfold parse_str.
    rewrite <- app_assoc. cbn [app]. rewrite parse_str_aux_escaped. reflexivity.
  - cbn [value_wf value_depth value_size] in Hwf, Hd, Hf.
    rewrite forallb_forall in Hwf.
    cbn [value_to_string app]. rewrite <- app_assoc. cbn [app].
    rewrite parse_value_bracket.
    destruct (Nat.eqb_spec (d - 1) 0) as [E|_]; [lia|].
    rewrite parse_seq_all; [reflexivity| |lia].
    apply List.Forall_forall. intros x Hx f' rest' Hf' Hend'.
    rewrite List.Forall_forall in IH. apply IH; auto.
    pose proof (in_list_max _ value_depth l x Hx). lia.
  - cbn [value_wf value_depth value_size] in Hwf, Hd, Hf.
    apply andb_true_iff in Hwf as [Hsorted Hwf]. rewrite forallb_forall in Hwf.
    cbn [value_to_string app]. rewrite <- app_assoc. cbn [app].
    rewrite parse_value_brace.
    destruct (Nat.eqb_spec (d - 1) 0) as [E|_]; [lia|].
    rewrite parse_members_all; [| |lia].
    + change (end_map (byte 125 :: rest)) with (Ok (E := json_error) rest). cbv beta iota.
      rewrite map_from_entries_sorted by exact Hsorted. reflexivity.
    + apply List.Forall_forall. intros x Hx f' rest' Hf' Hend'.
      rewrite List.Forall_forall in IH. apply IH; auto.
      pose proof (in_list_max _ (fun kv : bytes * Value => value_depth kv.2) m x Hx). lia.
Qed.

Lemma list_size_tail_bound (A : Type) (g : A -> bytes) (h : A -> nat) (l : list A) :
  Forall (fun a => h a <= 2 * length (g a)) l ->
  list_sum (List.map (fun a => S (h a)) l) <= 2 * length (flat_map (fun y => byte 44 :: y) (List.map g l)).
Proof.
  induction l as [|a l IH]; intros Hall; [simpl; lia|].
  inversion Hall as [|? ? Ha Hl]; subst.
  cbn [List.map flat_map]. rewrite list_sum_cons'. cbn [app length]. rewrite length_app.
  specialize (IH Hl). lia.
Qed.

Lemma list_size_bound (A : Type) (g : A -> bytes) (h : A -> nat) (l : list A) :
  Forall (fun a => h a <= 2 * length (g a)) l ->
  list_sum (List.map (fun a => S (h a)) l) <= 2 * length (join_comma (List.map g l)) + 1.
Proof.
  destruct l as [|a l]; intros Hall; [simpl; lia|].
  inversion Hall as [|? ? Ha Hl]; subst.
  cbn [List.map]. rewrite list_sum_cons', join_comma_cons, length_app.
  pose proof (list_size_tail_bound A g h l Hl). lia.
Qed.

Lemma value_size_bound (v : Value) : value_size v <= 2 * length (value_to_string v).
Proof.
  induction v as [| b | n | s | l IH | m IH] using value_ind'.
  1-4: match goal with
       | |- value_size ?w <= _ =>
           destruct (value_to_string_head w) as (c & t & Hs & _);
           rewrite Hs; cbn [value_size length]; lia
       end.
  - cbn [value_size value_to_string length]. rewrite length_app. cbn [length].
    pose proof (list_size_bound Value value_to_string value_size l IH). lia.
  - cbn [value_size value_to_string length]. rewrite length_app. cbn [length].
    assert (H : Forall (fun kv : bytes * Value => value_size kv.2 <= 2 * length (entry_text kv)) m).
    { eapply Forall_impl; [exact IH|]. intros [k v] Hv. cbn [fst snd] in *.
      rewrite length_app. cbn [length]. lia. }
    pose proof (list_size_bound (bytes * Value) entry_text (fun kv => value_size kv.2) m H). lia.
Qed.

Lemma from_str_map_to_string (entries : list (bytes * Value)) :
  Forall (fun kv => value_wf kv.2 = true /\ value_depth kv.2 < 127) entries ->
  from_str_map (map_to_string entries)
  = Ok (fold_left (fun m kv => <[kv.1 := kv.2]> m) entries ∅).
Proof.
  intros Hall. unfold from_str_map, map_to_string.
  assert (E : forall x, skip_json_ws (byte 123 :: x) = byte 123 :: x) by reflexivity.
  rewrite E. replace (is_byte 123 (byte 123)) with true by reflexivity.
  rewrite parse_members_all; [reflexivity| |].
  - apply List.Forall_forall. intros kv Hkv f' rest' Hf' Hend'.
    rewrite List.Forall_forall in Hall. destruct (Hall kv Hkv) as [Hwf Hd].
    apply parse_value_to_string; assumption.
  - assert (H : Forall (fun kv : bytes * Value => value_size kv.2 <= 2 * length (entry_text kv)) entries).
    { apply List.Forall_forall. intros [k v] _. cbn [fst snd].
      rewrite length_app. cbn [length]. pose proof (value_size_bound v). lia. }
    pose proof (list_size_bound (bytes * Value) entry_text (fun kv => value_size kv.2) entries H).
    unfold json_fuel. cbn [length]. rewrite length_app. cbn [length]. lia.
Qed.

Lemma fold_insert_list_to_map (entries : list (bytes * Value)) :
  fold_left (fun m kv => <[kv.1 := kv.2]> m) entries (∅ : gmap bytes Value)
  = list_to_map (rev entries).
Proof. unfold list_to_map. symmetry. apply fold_left_rev_right. Qed.

(** ** What the parser returns *)

Lemma bytes_compare_eq (a b : bytes) : bytes_compare a b = Eq -> a = b.
Proof.
  revert b. induction a as [|x a IH]; intros [|y b]; cbn [bytes_compare]; try discriminate; auto.
  destruct (Nat.compare (bval x) (bval y)) eqn:E; intros H; try discriminate.
  apply Nat.compare_eq_iff in E. unfold bval in E.
  rewrite <- (ascii_nat_embedding x), <- (ascii_nat_embedding y), E, (IH b H). reflexivity.
Qed.

Lemma bytes_compare_lt_trans (a b c : bytes) :
  bytes_compare a b = Lt -> bytes_compare b c = Lt -> bytes_compare a c = Lt.
Proof.
  revert b c. induction a as [|x a IH]; intros [|y b] [|z c]; cbn [bytes_compare];
    try discriminate; try reflexivity.
  destruct (Nat.compare (bval x) (bval y)) eqn:E1; try discriminate;
    destruct (Nat.compare (bval y) (bval z)) eqn:E2; try discriminate; intros H1 H2;
    [apply Nat.compare_eq_iff in E1, E2|apply Nat.compare_eq_iff in E1; apply Nat.compare_lt_iff in E2
    |apply Nat.compare_lt_iff in E1; apply Nat.compare_eq_iff in E2
    |apply Nat.compare_lt_iff in E1, E2].
  - replace (Nat.compare (bval x) (bval z)) with Eq by (symmetry; apply Nat.compare_eq_iff; lia).
    exact (IH b c H1 H2).
  - replace (Nat.compare (bval x) (bval z)) with Lt by (symmetry; apply Nat.compare_lt_iff; lia).
    reflexivity.
  - replace (Nat.compare (bval x) (bval z)) with Lt by (symmetry; apply Nat.compare_lt_iff; lia).
    reflexivity.
  - replace (Nat.compare (bval x) (bval z)) with Lt by (symmetry; apply Nat.compare_lt_iff; lia).
    reflexivity.
Qed.

Lemma map_insert_in (k : bytes) (v : Value) (m : list (bytes * Value)) (kv : bytes * Value) :
  In kv (map_insert k v m) -> kv = (k, v) \/ In kv m.
Proof.
  induction m as [|[k' v'] m IH]; cbn [map_insert].
  - intros [<-|[]]. left. reflexivity.
  - destruct (bytes_compare k k') eqn:E.
    + apply bytes_compare_eq in E. subst k'.
      intros [<-|H]; [left; reflexivity|right; right; exact H].
    + intros [<-|H]; [left; reflexivity|right; exact H].
    + intros [<-|H]; [right; left; reflexivity|].
      destruct (IH H) as [Hk|Hm]; [left; exact Hk|right; right; exact Hm].
Qed.

Lemma map_insert_sorted (k : bytes) (v : Value) (m : list (bytes * Value)) :
  keys_sorted m = true -> keys_sorted (map_insert k v m) = true.
Proof.
  induction m as [|[k' v'] m IH]; intros Hs; cbn [map_insert]; [reflexivity|].
  cbn [keys_sorted] in Hs. apply andb_true_iff in Hs as [Hk Hs].
  destruct (bytes_compare k k') eqn:E.
  - apply bytes_compare_eq in E. subst k'. cbn [keys_sorted]. rewrite Hk, Hs. reflexivity.
  - cbn [keys_sorted]. rewrite Hk, Hs, !andb_true_r. cbn [forallb fst]. rewrite E. cbn [andb].
    apply forallb_forall. intros kv Hkv. rewrite forallb_forall in Hk. specialize (Hk kv Hkv).
    destruct (bytes_compare k' kv.1) eqn:E2; try discriminate Hk.
    rewrite (bytes_compare_lt_trans _ _ _ E E2). reflexivity.
  - cbn [keys_sorted]. rewrite (IH Hs), andb_true_r.
    apply forallb_forall. intros kv Hkv. destruct (map_insert_in _ _ _ _ Hkv) as [->|H].
    + cbn [fst]. rewrite bytes_compare_antisym, E. reflexivity.
    + rewrite forallb_forall in Hk. exact (Hk kv H).
Qed.

Lemma fold_map_insert_in (entries acc : list (bytes * Value)) (kv : bytes * Value) :
  In kv (fold_left (fun m kv => map_insert kv.1 kv.2 m) entries acc) -> In kv acc \/ In kv entries.
Proof.
  revert acc. induction entries as [|[k v] entries IH]; intros acc H; [left; exact H|].
  cbn [fold_left fst snd] in H. destruct (IH _ H) as [H1|H1].
  - destruct (map_insert_in _ _ _ _ H1) as [->|H2]; [right; left; reflexivity|left; exact H2].
  - right. right. exact H1.
Qed.

Lemma fold_map_insert_sorted_keys (entries acc : list (bytes * Value)) :
  keys_sorted acc = true ->
  keys_sorted (fold_left (fun m kv => map_insert kv.1 kv.2 m) entries acc) = true.
Proof.
  revert acc. induction entries as [|[k v] entries IH]; intros acc H; [exact H|].
  cbn [fold_left fst snd]. apply IH, map_insert_sorted, H.
Qed.

Lemma parse_number_wf (pos : bool) (n : N) (s r : bytes) (v : Value) :
  (pos = true -> (n <= U64_MAX)%N) ->
  parse_number pos n s = Ok (v, r) -> value_wf v = true /\ value_depth v = 0.
Proof.
  intros Hn. unfold parse_number.
  assert (Hneg : ((1 <=? n)%N && (n <=? 9223372036854775808)%N) = true ->
                 value_wf (VNumber (NegInt (- Z.of_N n))) = true).
  { intros Hb. apply andb_true_iff in Hb as [Hb1 Hb2]. apply N.leb_le in Hb1, Hb2.
    cbn [value_wf]. apply andb_true_iff. split; [apply Z.leb_le|apply Z.ltb_lt]; lia. }
  assert (Hgen : (if pos then Ok (VNumber (PosInt n), s)
           else if (1 <=? n)%N && (n <=? 9223372036854775808)%N
           then Ok (VNumber (NegInt (- Z.of_N n)), s) else Err FloatNotModelled) = Ok (v, r) ->
           value_wf v = true /\ value_depth v = 0).
  { destruct pos.
    - intros H. injection H as <- <-. cbn [value_wf value_depth].
      split; [apply N.leb_le, Hn|]; reflexivity.
    - destruct ((1 <=? n)%N && (n <=? 9223372036854775808)%N) eqn:Hb; [|discriminate].
      intros H. injection H as <- <-. split; [apply Hneg; reflexivity|reflexivity]. }
  destruct s as [|c s]; [exact Hgen|].
  destruct (is_byte 46 c || is_byte 101 c || is_byte 69 c); [discriminate|exact Hgen].
Qed.

Lemma parse_digits_wf (pos : bool) (s : bytes) :
  forall (n : N) (r : bytes) (v : Value), (n <= U64_MAX)%N ->
  parse_digits pos n s = Ok (v, r) -> value_wf v = true /\ value_depth v = 0.
Proof.
  induction s as [|c s IH]; intros n r v Hn; cbn [parse_digits].
  - apply parse_number_wf. intros _. exact Hn.
  - destruct (is_digit c).
    + destruct (U64_MAX <? n * 10 + digit_val c)%N eqn:E; [discriminate|].
      apply IH. apply N.ltb_ge in E. exact E.
    + apply parse_number_wf. intros _. exact Hn.
Qed.

Lemma parse_integer_wf (pos : bool) (s r : bytes) (v : Value) :
  parse_integer pos s = Ok (v, r) -> value_wf v = true /\ value_depth v = 0.
Proof.
  unfold parse_integer. destruct s as [|c s1]; [discriminate|].
  destruct (is_byte 48 c).
  - destruct s1 as [|d s2]; [|destruct (is_digit d); [discriminate|]];
      apply parse_number_wf; intros _; unfold U64_MAX; lia.
  - destruct (is_digit c); [|discriminate]. apply parse_digits_wf.
    unfold digit_val, U64_MAX. pose proof (nat_ascii_bounded c). unfold bval. lia.
Qed.

Lemma map_from_entries_ok (d : nat) (entries : list (bytes * Value)) :
  Forall (fun kv => parsed_ok d kv.2) entries ->
  Forall (fun kv => parsed_ok d kv.2) (map_from_entries entries) /\
  keys_sorted (map_from_entries entries) = true.
Proof.
  intros H. unfold map_from_entries. split.
  - apply List.Forall_forall. intros kv Hkv.
    destruct (fold_map_insert_in _ _ _ Hkv) as [[]|Hin].
    rewrite List.Forall_forall in H. exact (H kv Hin).
  - apply fold_map_insert_sorted_keys. reflexivity.
Qed.

Ltac split_parse H :=
  repeat match type of H with
  | context [match ?x with _ => _ end] => destruct x eqn:?
  end.

Lemma parse_ok (f : nat) :
  (forall d s v r, parse_value f d s = Ok (v, r) -> parsed_ok d v) /\
  (forall d first s acc l r, parse_seq f d first s acc = Ok (l, r) ->
     Forall (parsed_ok d) acc -> Forall (parsed_ok d) l) /\
  (forall d first s acc l r, parse_members f d first s acc = Ok (l, r) ->
     Forall (fun kv => parsed_ok d kv.2) acc -> Forall (fun kv => parsed_ok d kv.2) l).
Proof.
  induction f as [|f [IHv [IHs IHm]]].
  { split; [|split]; intros; discriminate. }
  split; [|split].
  - intros d s v r H. cbn [parse_value] in H. split_parse H; try discriminate H.
    all: try (injection H as <- <-; split; [reflexivity|cbn [value_depth]; lia]).
    all: try (apply parse_integer_wf in H as [H1 H2]; split; [exact H1|lia]).
    + injection H as <- <-.
      match goal with E : parse_seq _ _ _ _ _ = _ |- _ =>
        pose proof (IHs _ _ _ _ _ _ E (List.Forall_nil _)) as Hl end.
      match goal with E : (d - 1 =? 0) = false |- _ => apply Nat.eqb_neq in E end.
      split.
      * cbn [value_wf]. apply forallb_forall. intros x Hx.
        rewrite List.Forall_forall in Hl. apply (Hl x Hx).
      * cbn [value_depth].
        assert (list_max (List.map value_depth l0) <= d - 1 - 1); [|lia].
        apply list_max_le, Forall_map. eapply Forall_impl; [exact Hl|]. intros x [_ Hx]. exact Hx.
    + injection H as <- <-.
      match goal with E : parse_members _ _ _ _ _ = _ |- _ =>
        pose proof (IHm _ _ _ _ _ _ E (List.Forall_nil _)) as Hl end.
      match goal with E : (d - 1 =? 0) = false |- _ => apply Nat.eqb_neq in E end.
      apply map_from_entries_ok in Hl as [Hl Hsorted].
      split.
      * cbn [value_wf]. rewrite Hsorted. cbn [andb]. apply forallb_forall. intros x Hx.
        rewrite List.Forall_forall in Hl. apply (Hl x Hx).
      * cbn [value_depth].
        assert (list_max (List.map (fun kv : bytes * Value => value_depth kv.2)
                  (map_from_entries l0)) <= d - 1 - 1); [|lia].
        apply list_max_le, Forall_map. eapply Forall_impl; [exact Hl|]. intros x [_ Hx]. exact Hx.
  - intros d first s acc l r H Hacc. cbn [parse_seq] in H. split_parse H; try discriminate H.
    all: try (injection H as <- _; apply Forall_rev, Hacc).
    all: (eapply IHs; [exact H|]; constructor; [eapply IHv; eassumption|exact Hacc]).
  - intros d first s acc l r H Hacc. cbn [parse_members] in H. split_parse H; try discriminate H.
    all: try (injection H as <- _; apply Forall_rev, Hacc).
    all: (eapply IHm; [exact H|]; constructor; [cbn [snd]; eapply IHv; eassumption|exact Hacc]).
Qed.


Lemma fold_insert_forall (P : bytes -> Value -> Prop) (entries : list (bytes * Value)) :
  forall acc : gmap bytes Value,
  map_Forall P acc -> Forall (fun kv => P kv.1 kv.2) entries ->
  map_Forall P (fold_left (fun m kv => <[kv.1 := kv.2]> m) entries acc).
Proof.
  induction entries as [|kv entries IH]; intros acc Hacc H; [exact Hacc|].
  inversion H as [|? ? Hkv Hl]; subst. cbn [fold_left].
  apply IH; [apply map_Forall_insert_2; assumption|exact Hl].
Qed.

Lemma from_str_map_ok (s : bytes) (m : gmap bytes Value) :
  from_str_map s = Ok m ->
  map_Forall (fun _ v => value_wf v = true /\ value_depth v <= 126) m.
Proof.
  unfold from_str_map. intros H. split_parse H; try discriminate H.
  injection H as <-.
  match goal with E : parse_members _ _ _ _ _ = _ |- _ =>
    pose proof (proj2 (proj2 (parse_ok _)) _ _ _ _ _ _ E (List.Forall_nil _)) as Hl end.
  apply fold_insert_forall; [apply map_Forall_empty|].
  eapply Forall_impl; [exact Hl|]. intros kv [H1 H2]. split; [exact H1|lia].
Qed.

(** The text of a map of well-formed values, written in any order,
    deserializes to that map. *)
Lemma from_str_map_perm (m : gmap bytes Value) (l : list (bytes * Value)) :
  map_Forall (fun _ v => value_wf v = true /\ value_depth v <= 126) m ->
  l ≡ₚ map_to_list m -> from_str_map (map_to_string l) = Ok m.
Proof.
  intros Hm Hl. rewrite from_str_map_to_string.
  - f_equal. rewrite fold_insert_list_to_map.
    rewrite (list_to_map_proper (rev l) (map_to_list m)).
    + apply list_to_map_to_list.
    + rewrite <- Permutation_rev, Hl. apply NoDup_fst_map_to_list.
    + rewrite <- Permutation_rev. exact Hl.
  - apply map_Forall_to_list in Hm. rewrite <- Hl in Hm.
    eapply Forall_impl; [exact Hm|]. intros [k v] [H1 H2]. cbn [fst snd]. split; [exact H1|lia].
Qed.

(** The snapshot round trip, for mappings without floating-point numbers
    (the model's [Value] has no [f64]). Take a mapping whose values are
    JSON values of null, booleans, integers in the [u64] or negative
    [i64] range, strings, arrays and objects with keys in
    [serde_json::Map]'s sorted order ([value_wf]), nested at most 126
    arrays and objects deep (the map itself takes one of serde_json's 128
    levels). Serialize it as [Drop for Storage] does, with the [HashMap]
    iterated in any order ([entries] is a permutation of its bindings).
    Deserializing that text as [server_init] does gives back the same
    map, so the store [load_storage] rebuilds from the flushed snapshot is
    the store that was flushed. *)
Theorem snapshot_round_trip (m : gmap bytes Value) (entries : list (bytes * Value)) :
  entries ≡ₚ map_to_list m ->
  map_Forall (fun _ v => value_wf v = true /\ value_depth v <= 126) m ->
  from_str_map (map_to_string entries) = Ok m
  /\ load_storage (Ok (map_to_string entries)) = Ok (Storage_ m)
  /\ load_storage (Ok (storage_json (Storage_ m))) = Ok (Storage_ m).
Proof.
  intros Hperm Hm.
  unfold load_storage, load_storage_with, storage_json. cbn [storage0].
  rewrite (from_str_map_perm m entries Hm Hperm), (from_str_map_perm m (map_to_list m) Hm ltac:(reflexivity)).
  auto.
Qed.

(** ** Requests on the wire, the accept loop and restarts *)

Lemma key_byte_ascii (c : ascii) : key_byte c = true -> bval c < 128.
Proof. unfold key_byte. intros H. apply andb_true_iff in H as [H _]. apply Nat.ltb_lt, H. Qed.

Lemma key_byte_line (c : ascii) : key_byte c = true -> line_byte c = true.
Proof.
  unfold key_byte, line_byte, is_whitespace. intros H.
  apply andb_true_iff in H as [H1 H2]. rewrite H1. cbn [andb].
  destruct (Nat.eqb_spec (bval c) 10) as [E|]; [|reflexivity].
  rewrite E in H2. discriminate H2.
Qed.

Lemma from_utf8_lossy_ascii_app (a b : bytes) :
  Forall (fun c => bval c < 128) a -> from_utf8_lossy (a ++ b) = a ++ from_utf8_lossy b.
Proof.
  induction a as [|c a IH]; intros H; [reflexivity|].
  inversion H as [|? ? Hc Ha]; subst.
  cbn [app from_utf8_lossy]. destruct (Nat.ltb_spec (bval c) 128); [|lia].
  rewrite IH by exact Ha. reflexivity.
Qed.

Lemma before_newline_app (a r : bytes) :
  Forall (fun c => bval c <> 10) a -> before_newline (a ++ LF :: r) = a.
Proof.
  induction a as [|c a IH]; intros H; [reflexivity|].
  inversion H as [|? ? Hc Ha]; subst.
  cbn [app before_newline]. destruct (Nat.eqb_spec (bval c) 10); [contradiction|].
  rewrite IH by exact Ha. reflexivity.
Qed.

Lemma before_newline_no_lf (a : bytes) :
  Forall (fun c => bval c <> 10) a -> before_newline a = a.
Proof.
  induction a as [|c a IH]; intros H; [reflexivity|].
  inversion H as [|? ? Hc Ha]; subst.
  cbn [before_newline]. destruct (Nat.eqb_spec (bval c) 10); [contradiction|].
  rewrite IH by exact Ha. reflexivity.
Qed.

Lemma strip_cr_cr (l : bytes) : strip_cr (l ++ [CR]) = l.
Proof. unfold strip_cr. rewrite rev_unit. cbn. rewrite rev_involutive. reflexivity. Qed.

Lemma strip_cr_last (l : bytes) (c : ascii) : bval c <> 13 -> strip_cr (l ++ [c]) = l ++ [c].
Proof.
  intros H. unfold strip_cr. rewrite rev_unit.
  destruct (Nat.eqb_spec (bval c) 13); [contradiction|reflexivity].
Qed.

Lemma fill_buffer_prefix (a r : bytes) :
  length a <= BUFFER_SIZE ->
  fill_buffer (a ++ r) = a ++ take (BUFFER_SIZE - length a) (r ++ replicate BUFFER_SIZE (byte 0)).
Proof.
  intros H. unfold fill_buffer. rewrite <- app_assoc, firstn_app.
  rewrite firstn_all2 by lia. reflexivity.
Qed.

Lemma fill_buffer_long (a r : bytes) :
  BUFFER_SIZE <= length a -> fill_buffer (a ++ r) = take BUFFER_SIZE a.
Proof.
  intros H. unfold fill_buffer. rewrite <- app_assoc, firstn_app.
  replace (BUFFER_SIZE - length a) with 0 by lia. rewrite firstn_O, app_nil_r. reflexivity.
Qed.

Lemma first_line_app (a b : bytes) (c : ascii) :
  first_line ((c :: a) ++ b) = Some (strip_cr (before_newline ((c :: a) ++ b))).
Proof. reflexivity. Qed.

(** The line up to the first LF is the request line. *)
Lemma request_line_lf (line rest : bytes) :
  forallb line_byte line = true -> length line < BUFFER_SIZE ->
  request_line (line ++ LF :: rest) = Some (strip_cr line).
Proof.
  intros Hl Hlen. unfold request_line.
  rewrite forallb_forall, <- List.Forall_forall in Hl.
  assert (Ha : Forall (fun c => bval c < 128) (line ++ [LF])).
  { apply Forall_app. split; [|repeat constructor].
    eapply Forall_impl; [exact Hl|]. intros c Hc. unfold line_byte in Hc.
    apply andb_true_iff in Hc as [Hc _]. apply Nat.ltb_lt, Hc. }
  replace (line ++ LF :: rest) with ((line ++ [LF]) ++ rest) by (rewrite <- app_assoc; reflexivity).
  rewrite fill_buffer_prefix by (rewrite length_app; cbn [length]; lia).
  rewrite from_utf8_lossy_ascii_app by exact Ha.
  destruct (line ++ [LF]) as [|c a] eqn:E; [destruct line; discriminate|].
  rewrite first_line_app, <- E, <- app_assoc. cbn [app].
  rewrite before_newline_app; [reflexivity|].
  eapply Forall_impl; [exact Hl|]. intros c' Hc. unfold line_byte in Hc.
  apply andb_true_iff in Hc as [_ Hc].
  apply negb_true_iff, Nat.eqb_neq in Hc. exact Hc.
Qed.

Lemma starts_with_app (p s : bytes) : starts_with p (p ++ s) = true.
Proof.
  induction p as [|a p IH]; [reflexivity|].
  cbn [app starts_with]. destruct (ascii_dec a a); [exact IH|congruence].
Qed.

Lemma starts_with_app_r (p a b : bytes) : starts_with p a = true -> starts_with p (a ++ b) = true.
Proof.
  revert p. induction a as [|x a IH]; intros [|y p] H; try reflexivity; try discriminate H.
  cbn [app starts_with] in *. destruct (ascii_dec y x); [apply IH, H|discriminate H].
Qed.

Lemma starts_with_sep (pat a b : bytes) (c : ascii) :
  c ∉ pat -> starts_with pat (a ++ c :: b) = starts_with pat a.
Proof.
  revert pat. induction a as [|x a IH]; intros [|p pat] Hc; try reflexivity.
  - cbn [app starts_with]. destruct (ascii_dec p c) as [->|]; [|reflexivity].
    exfalso. apply Hc. left.
  - cbn [app starts_with]. destruct (ascii_dec p x); [|reflexivity].
    apply IH. intros Hin. apply Hc. right. exact Hin.
Qed.

Lemma contains_sep (pat a b : bytes) (c : ascii) :
  c ∉ pat -> contains (a ++ c :: b) pat = contains a pat || contains (c :: b) pat.
Proof.
  intros Hc. induction a as [|x a IH].
  - destruct pat as [|p pat]; reflexivity.
  - change ((x :: a) ++ c :: b) with (x :: (a ++ c :: b)).
    cbn [contains]. rewrite IH, orb_assoc.
    change (x :: a ++ c :: b) with ((x :: a) ++ c :: b).
    rewrite starts_with_sep by exact Hc. reflexivity.
Qed.

Lemma contains_app_l (pat a b : bytes) : contains (a ++ b) pat = false -> contains a pat = false.
Proof.
  intros H. destruct (contains a pat) eqn:E; [|reflexivity]. rewrite <- H. clear H.
  symmetry. induction a as [|x a IH].
  - destruct pat; [|discriminate E]. destruct b; reflexivity.
  - cbn [contains app] in *. apply orb_true_iff in E as [E|E].
    + change (x :: a ++ b) with ((x :: a) ++ b). rewrite starts_with_app_r by exact E. reflexivity.
    + rewrite IH by exact E. apply orb_true_r.
Qed.

Lemma contains_single (e : ascii) (s : bytes) : contains s [e] = false -> e ∉ s.
Proof.
  induction s as [|c s IH]; intros H Hin; [apply elem_of_nil in Hin; exact Hin|].
  cbn [contains starts_with] in H. apply orb_false_iff in H as [H1 H2].
  apply elem_of_cons in Hin as [->|Hin].
  - destruct (ascii_dec c c); [discriminate H1|congruence].
  - exact (IH H2 Hin).
Qed.

Lemma split_aux_skip (pat x s cur : bytes) :
  split_aux pat (x ++ s) cur (length x) = split_aux pat s cur 0.
Proof. induction x as [|c x IH]; [reflexivity|]. cbn [app length split_aux]. exact IH. Qed.

Lemma split_aux_match (pat s cur : bytes) :
  pat <> [] -> split_aux pat (pat ++ s) cur 0 = rev cur :: split_aux pat s [] 0.
Proof.
  destruct pat as [|p pat]; intros Hp; [congruence|].
  change ((p :: pat) ++ s) with (p :: (pat ++ s)). cbn [split_aux].
  change (p :: pat ++ s) with ((p :: pat) ++ s). rewrite starts_with_app.
  replace (length (p :: pat) - 1) with (length pat) by (cbn [length]; lia).
  rewrite split_aux_skip. reflexivity.
Qed.

Lemma split_aux_none (pat s cur : bytes) :
  contains s pat = false -> split_aux pat s cur 0 = [rev cur ++ s].
Proof.
  revert cur. induction s as [|c s IH]; intros cur H.
  - rewrite app_nil_r. reflexivity.
  - cbn [contains] in H. apply orb_false_iff in H as [H1 H2].
    cbn [split_aux]. rewrite H1, IH by exact H2.
    cbn [rev]. rewrite <- app_assoc. reflexivity.
Qed.

Lemma split_aux_prefix (h : ascii) (pat p s cur : bytes) :
  forallb (fun c => if ascii_dec h c then false else true) p = true ->
  split_aux (h :: pat) (p ++ s) cur 0 = split_aux (h :: pat) s (rev p ++ cur) 0.
Proof.
  revert cur. induction p as [|x p IH]; intros cur H; [reflexivity|].
  cbn [forallb] in H. apply andb_true_iff in H as [Hx Hp].
  cbn [app split_aux starts_with]. destruct (ascii_dec h x); [discriminate Hx|].
  rewrite IH by exact Hp. cbn [rev]. rewrite <- app_assoc. reflexivity.
Qed.

Lemma utf8_chars_ascii (a s : bytes) :
  Forall (fun c => bval c < 128) a -> utf8_chars (a ++ s) = List.map (fun c => [c]) a ++ utf8_chars s.
Proof.
  induction a as [|c a IH]; intros H; [reflexivity|].
  inversion H as [|? ? Hc Ha]; subst.
  cbn [app utf8_chars]. destruct (Nat.ltb_spec (bval c) 192); [|lia].
  rewrite IH by exact Ha. reflexivity.
Qed.

Lemma take_non_ws_keys (a : bytes) (cs : list bytes) :
  forallb key_byte a = true -> take_non_ws (List.map (fun c => [c]) a ++ cs) = a ++ take_non_ws cs.
Proof.
  induction a as [|c a IH]; intros H; [reflexivity|].
  cbn [forallb] in H. apply andb_true_iff in H as [Hc Ha].
  cbn [List.map app take_non_ws].
  unfold key_byte in Hc. apply andb_true_iff in Hc as [_ Hc]. apply negb_true_iff in Hc.
  rewrite Hc, IH by exact Ha. reflexivity.
Qed.

Lemma forallb_key_ascii (a : bytes) :
  forallb key_byte a = true -> Forall (fun c => bval c < 128) a.
Proof.
  intros H. apply List.Forall_forall. intros c Hc. rewrite forallb_forall in H.
  apply key_byte_ascii, H, Hc.
Qed.

(** The first whitespace-delimited token of [a ++ t] is [a]. *)
Lemma split_whitespace_next_token (a t : bytes) :
  a <> [] -> forallb key_byte a = true -> take_non_ws (utf8_chars t) = [] ->
  split_whitespace_next (a ++ t) = Some a.
Proof.
  intros Hne Ha Ht. unfold split_whitespace_next.
  rewrite utf8_chars_ascii by (apply forallb_key_ascii, Ha).
  destruct a as [|c a']; [congruence|].
  cbn [List.map app drop_ws].
  pose proof Ha as Hc. cbn [forallb] in Hc. apply andb_true_iff in Hc as [Hc _].
  unfold key_byte in Hc. apply andb_true_iff in Hc as [_ Hc]. apply negb_true_iff in Hc.
  rewrite Hc. change ([c] :: List.map (fun c0 => [c0]) a' ++ utf8_chars t)
    with (List.map (fun c0 => [c0]) (c :: a') ++ utf8_chars t).
  rewrite take_non_ws_keys, Ht, app_nil_r by exact Ha. reflexivity.
Qed.

Lemma take_non_ws_space (t : bytes) : take_non_ws (utf8_chars (byte 32 :: t)) = [].
Proof. reflexivity. Qed.

Lemma split_whitespace_next_some (s tok : bytes) : split_whitespace_next s = Some tok -> tok <> [].
Proof.
  unfold split_whitespace_next. destruct (take_non_ws (drop_ws (utf8_chars s))); congruence.
Qed.

Lemma get_header_split : GET_HEADER = lit "GET /get?" ++ lit "key=".
Proof. reflexivity. Qed.

Lemma set_header_split : SET_HEADER = lit "GET /" ++ lit "set?".
Proof. reflexivity. Qed.

(** [parse_get] on a get line whose key is [k], followed by [t]. *)
Lemma parse_get_line (k t : bytes) :
  k <> [] -> forallb key_byte k = true -> contains (k ++ t) (lit "key=") = false ->
  take_non_ws (utf8_chars t) = [] ->
  parse_get (GET_HEADER ++ k ++ t) = Ok k.
Proof.
  intros Hne Hk Hc Ht. unfold parse_get, split.
  rewrite get_header_split, <- app_assoc.
  change (lit "key=") with (byte 107 :: lit "ey=").
  rewrite split_aux_prefix by reflexivity.
  rewrite split_aux_match by discriminate.
  rewrite split_aux_none by exact Hc. cbn [rev app].
  rewrite split_whitespace_next_token by assumption. reflexivity.
Qed.

(** [parse_set] on a set line whose token is [k=v], followed by [t]. *)
Lemma parse_set_line (k v t : bytes) :
  forallb key_byte k = true -> forallb key_byte v = true ->
  contains k (lit "=") = false -> contains v (lit "=") = false ->
  contains (k ++ EQ :: v ++ t) (lit "set?") = false ->
  take_non_ws (utf8_chars t) = [] ->
  parse_set (SET_HEADER ++ k ++ EQ :: v ++ t) = Ok (k, v).
Proof.
  intros Hk Hv Hke Hve Hc Ht. unfold parse_set, split.
  rewrite set_header_split, <- app_assoc.
  change (lit "set?") with (byte 115 :: lit "et?").
  rewrite split_aux_prefix by reflexivity.
  rewrite split_aux_match by discriminate.
  rewrite split_aux_none by exact Hc. cbn [rev app].
  replace (k ++ EQ :: v ++ t) with ((k ++ EQ :: v) ++ t) by (rewrite <- app_assoc; reflexivity).
  rewrite split_whitespace_next_token; [| destruct k; discriminate | |exact Ht].
  - rewrite lit_eq. rewrite (proj2 (split_single_two EQ (k ++ EQ :: v) k v)).
    + reflexivity.
    + split; [reflexivity|]. split; apply contains_single; assumption.
  - rewrite forallb_app. rewrite Hk. cbn [forallb]. rewrite Hv. reflexivity.
Qed.

Lemma forallb_key_line (a : bytes) : forallb key_byte a = true -> forallb line_byte a = true.
Proof.
  rewrite !forallb_forall. intros H c Hc. apply key_byte_line, H, Hc.
Qed.

Lemma forallb_line_ascii (a : bytes) :
  forallb line_byte a = true -> Forall (fun c => bval c < 128) a.
Proof.
  intros H. apply List.Forall_forall. intros c Hc. rewrite forallb_forall in H.
  specialize (H c Hc). unfold line_byte in H. apply andb_true_iff in H as [H _].
  apply Nat.ltb_lt, H.
Qed.

Lemma forallb_line_no_lf (a : bytes) :
  forallb line_byte a = true -> Forall (fun c => bval c <> 10) a.
Proof.
  intros H. apply List.Forall_forall. intros c Hc. rewrite forallb_forall in H.
  specialize (H c Hc). unfold line_byte in H. apply andb_true_iff in H as [_ H].
  apply negb_true_iff, Nat.eqb_neq in H. exact H.
Qed.

Lemma key_byte_not_cr (c : ascii) : key_byte c = true -> bval c <> 13.
Proof.
  unfold key_byte. intros H E. apply andb_true_iff in H as [_ H].
  rewrite <- (ascii_nat_embedding c) in H. unfold bval in E. rewrite E in H. discriminate H.
Qed.

Lemma contains_space_tail (pat t : bytes) (c : ascii) :
  starts_with pat (c :: t) = false -> contains (c :: t) pat = contains t pat.
Proof. intros H. cbn [contains]. rewrite H. reflexivity. Qed.

Lemma space_not_in (pat : bytes) : Forall (fun c => bval c <> 32) pat -> byte 32 ∉ pat.
Proof.
  intros H Hin. rewrite List.Forall_forall in H. apply list_elem_of_In in Hin.
  apply (H _ Hin). reflexivity.
Qed.

Lemma get_tail_ok (k tl : bytes) :
  (tl = [] \/ exists t, tl = byte 32 :: t) ->
  contains k (lit "key=") = false -> contains tl (lit "key=") = false ->
  contains (k ++ tl) (lit "key=") = false /\ take_non_ws (utf8_chars tl) = [].
Proof.
  intros [->|[t ->]] Hk Ht.
  - rewrite app_nil_r. split; [exact Hk|reflexivity].
  - split; [|apply take_non_ws_space].
    rewrite contains_sep by (apply space_not_in; repeat constructor; discriminate).
    rewrite Hk. exact Ht.
Qed.

(** A get line [GET /get?key=<k>], alone or followed by a space and
    more, ended by CRLF parses to [Get k]. *)
Lemma parse_request_get_tail (k tl rest : bytes) :
  k <> [] -> forallb key_byte k = true -> contains k (lit "key=") = false ->
  (tl = [] \/ exists t, tl = byte 32 :: t) ->
  forallb line_byte tl = true -> contains tl (lit "key=") = false ->
  length GET_HEADER + length k + length tl + 1 < BUFFER_SIZE ->
  parse_request (Ok (GET_HEADER ++ k ++ tl ++ CRLF ++ rest)) = Ok (Get k).
Proof.
  intros Hne Hk Hkc Htl Ht Htc Hlen. cbn [parse_request].
  replace (GET_HEADER ++ k ++ tl ++ CRLF ++ rest)
    with (((GET_HEADER ++ k ++ tl) ++ [CR]) ++ LF :: rest)
    by (unfold CRLF, CR, LF; repeat (rewrite <- app_assoc || rewrite <- app_comm_cons); reflexivity).
  rewrite request_line_lf.
  2: { rewrite !forallb_app. rewrite (forallb_key_line _ Hk), Ht. reflexivity. }
  2: { rewrite !length_app. cbn [length]. lia. }
  destruct (get_tail_ok k tl Htl Hkc Htc) as [H1 H2].
  rewrite strip_cr_cr, starts_with_app, parse_get_line by assumption. reflexivity.
Qed.

(** A get line [GET /get?key=<k> <t>] ended by CRLF parses to [Get k]. *)
Lemma parse_request_get_line (k t rest : bytes) :
  k <> [] -> forallb key_byte k = true -> contains k (lit "key=") = false ->
  forallb line_byte t = true -> contains t (lit "key=") = false ->
  length GET_HEADER + length k + length t + 2 < BUFFER_SIZE ->
  parse_request (Ok (GET_HEADER ++ k ++ byte 32 :: t ++ CRLF ++ rest)) = Ok (Get k).
Proof.
  intros Hne Hk Hkc Ht Htc Hlen.
  apply (parse_request_get_tail k (byte 32 :: t));
    [exact Hne|exact Hk|exact Hkc|right; exists t; reflexivity|exact Ht|exact Htc|].
  cbn [length]. lia.
Qed.

Lemma set_token_contains (k v t : bytes) :
  contains k (lit "set?") = false -> contains v (lit "set?") = false -> contains t (lit "set?") = false ->
  contains (k ++ EQ :: v ++ byte 32 :: t) (lit "set?") = false.
Proof.
  intros Hk Hv Ht.
  assert (Hsep : forall c, bval c <> 110 -> (c = EQ \/ c = byte 32) -> c ∉ lit "set?").
  { intros c _ [-> | ->] Hin; vm_compute in Hin;
      repeat (apply elem_of_cons in Hin as [Hin|Hin]; [discriminate Hin|]);
      apply elem_of_nil in Hin; exact Hin. }
  rewrite contains_sep by (apply Hsep; [discriminate|left; reflexivity]).
  rewrite Hk, contains_space_tail by reflexivity.
  rewrite contains_sep by (apply Hsep; [discriminate|right; reflexivity]).
  rewrite Hv, contains_space_tail by reflexivity. exact Ht.
Qed.

Lemma set_tail_ok (k v tl : bytes) :
  (tl = [] \/ exists t, tl = byte 32 :: t) ->
  contains k (lit "set?") = false -> contains v (lit "set?") = false ->
  contains tl (lit "set?") = false ->
  contains (k ++ EQ :: v ++ tl) (lit "set?") = false /\ take_non_ws (utf8_chars tl) = [].
Proof.
  intros [->|[t ->]] Hk Hv Ht.
  - rewrite app_nil_r. split; [|reflexivity].
    rewrite contains_sep by (intros Hin; vm_compute in Hin;
      repeat (apply elem_of_cons in Hin as [Hin|Hin]; [discriminate Hin|]);
      apply elem_of_nil in Hin; exact Hin).
    rewrite Hk, contains_space_tail by reflexivity. exact Hv.
  - split; [|apply take_non_ws_space].
    apply set_token_contains; [exact Hk|exact Hv|].
    rewrite contains_space_tail in Ht by reflexivity. exact Ht.
Qed.

(** A set line [GET /set?<k>=<v>], alone or followed by a space and
    more, ended by CRLF parses to [Set_ k v]. *)
Lemma parse_request_set_tail (k v tl rest : bytes) :
  forallb key_byte k = true -> forallb key_byte v = true ->
  contains k (lit "=") = false -> contains v (lit "=") = false ->
  contains k (lit "set?") = false -> contains v (lit "set?") = false ->
  (tl = [] \/ exists t, tl = byte 32 :: t) ->
  forallb line_byte tl = true -> contains tl (lit "set?") = false ->
  length SET_HEADER + length k + length v + length tl + 2 < BUFFER_SIZE ->
  parse_request (Ok (SET_HEADER ++ k ++ EQ :: v ++ tl ++ CRLF ++ rest)) = Ok (Set_ k v).
Proof.
  intros Hk Hv Hke Hve Hks Hvs Htl Ht Hts Hlen. cbn [parse_request].
  replace (SET_HEADER ++ k ++ EQ :: v ++ tl ++ CRLF ++ rest)
    with (((SET_HEADER ++ k ++ EQ :: v ++ tl) ++ [CR]) ++ LF :: rest)
    by (unfold CRLF, CR, LF; repeat (rewrite <- app_assoc || rewrite <- app_comm_cons); reflexivity).
  rewrite request_line_lf.
  2: { rewrite !forallb_app. cbn [forallb]. rewrite !forallb_app.
       rewrite (forallb_key_line _ Hk), (forallb_key_line _ Hv), Ht. reflexivity. }
  2: { rewrite !length_app. cbn [length]. rewrite !length_app. lia. }
  destruct (set_tail_ok k v tl Htl Hks Hvs Hts) as [H1 H2].
  rewrite strip_cr_cr.
  replace (starts_with GET_HEADER (SET_HEADER ++ _)) with false by reflexivity.
  rewrite starts_with_app, parse_set_line by assumption. reflexivity.
Qed.

(** A set line [GET /set?<k>=<v> <t>] ended by CRLF parses to [Set_ k v]. *)
Lemma parse_request_set_line (k v t rest : bytes) :
  forallb key_byte k = true -> forallb key_byte v = true ->
  contains k (lit "=") = false -> contains v (lit "=") = false ->
  contains k (lit "set?") = false -> contains v (lit "set?") = false ->
  forallb line_byte t = true -> contains t (lit "set?") = false ->
  length SET_HEADER + length k + length v + length t + 3 < BUFFER_SIZE ->
  parse_request (Ok (SET_HEADER ++ k ++ EQ :: v ++ byte 32 :: t ++ CRLF ++ rest)) = Ok (Set_ k v).
Proof.
  intros Hk Hv Hke Hve Hks Hvs Ht Hts Hlen.
  apply (parse_request_set_tail k v (byte 32 :: t));
    [exact Hk|exact Hv|exact Hke|exact Hve|exact Hks|exact Hvs|right; exists t; reflexivity
    |exact Ht|exact Hts|].
  cbn [length]. lia.
Qed.

(** A get line longer than the buffer is cut at [BUFFER_SIZE] bytes. *)
Lemma parse_request_long_get (k rest : bytes) :
  forallb key_byte k = true -> contains k (lit "key=") = false ->
  BUFFER_SIZE <= length GET_HEADER + length k ->
  parse_request (Ok (GET_HEADER ++ k ++ rest)) =
  Ok (Get (take (BUFFER_SIZE - length GET_HEADER) k)).
Proof.
  intros Hk Hkc Hlen. cbn [parse_request]. unfold request_line.
  rewrite app_assoc, fill_buffer_long by (rewrite length_app; lia).
  rewrite firstn_app, (@firstn_all2 _ BUFFER_SIZE GET_HEADER) by (cbn; unfold BUFFER_SIZE; lia).
  set (n := BUFFER_SIZE - length GET_HEADER).
  set (k' := take n k).
  assert (Hsplit : k = k' ++ drop n k) by (symmetry; apply take_drop).
  assert (Hk' : forallb key_byte k' = true).
  { rewrite Hsplit, forallb_app in Hk. apply andb_true_iff in Hk as [Hk _]. exact Hk. }
  assert (Hkc' : contains (k' ++ []) (lit "key=") = false).
  { rewrite app_nil_r. apply (contains_app_l _ _ (drop n k)). rewrite <- Hsplit. exact Hkc. }
  assert (Hlk : length k' = n) by (unfold k', n; rewrite length_take; lia).
  assert (Hl : forallb line_byte (GET_HEADER ++ k') = true).
  { rewrite forallb_app, (forallb_key_line _ Hk'). reflexivity. }
  rewrite <- (app_nil_r (GET_HEADER ++ k')).
  rewrite from_utf8_lossy_ascii_app by (apply forallb_line_ascii, Hl).
  change (from_utf8_lossy []) with (@nil ascii). rewrite app_nil_r.
  change GET_HEADER with (byte 71 :: lit "ET /get?key=").
  rewrite first_line_app.
  rewrite before_newline_no_lf by (apply forallb_line_no_lf, Hl).
  destruct (exists_last (l := k')) as (l & c & Hlc).
  { intros E. rewrite E in Hlk. cbn in Hlk. unfold n in Hlk. cbn in Hlk. lia. }
  rewrite Hlc, app_assoc, strip_cr_last.
  2: { apply key_byte_not_cr. rewrite Hlc, forallb_app in Hk'.
       apply andb_true_iff in Hk' as [_ Hc]. cbn in Hc. rewrite andb_true_r in Hc. exact Hc. }
  rewrite <- app_assoc, <- Hlc. change (byte 71 :: lit "ET /get?key=") with GET_HEADER.
  rewrite starts_with_app, <- (app_nil_r (GET_HEADER ++ k')), <- app_assoc, parse_get_line;
    try assumption; [reflexivity| |reflexivity].
  intros E. rewrite E in Hlk. cbn in Hlk. unfold n in Hlk. cbn in Hlk. lia.
Qed.

(** No input parses to a get request with the empty key. *)
Lemma parse_request_no_empty_get (read : result bytes io_error) :
  parse_request read <> Ok (Get []).
Proof.
  unfold parse_request. destruct read as [data|e]; [|discriminate].
  destruct (request_line data) as [line|]; [|discriminate].
  destruct (starts_with GET_HEADER line).
  - unfold parse_get. destruct (split line (lit "key=")) as [|a [|b [|c l]]]; try discriminate.
    destruct (split_whitespace_next b) as [tok|] eqn:E; [|discriminate].
    apply split_whitespace_next_some in E. congruence.
  - destruct (starts_with SET_HEADER line); [|discriminate].
    destruct (parse_set line) as [[key val]|err]; discriminate.
Qed.

Lemma serve_store_run (rh : bytes -> result bytes io_error) (inc : list (result Conn io_error))
    (st : Storage) :
  exists rs, snd (serve rh inc st) = snd (handle_all rs st).
Proof.
  revert st. induction inc as [|[stream|e] inc IH]; intros st.
  - exists []. reflexivity.
  - cbn [serve]. destruct (parse_request (conn_read stream)) as [req|err].
    + destruct (handle_request req st) as [resp st'] eqn:Eh.
      destruct (send_response rh resp stream) as [out|err].
      * destruct (IH st') as [rs Hrs]. exists (req :: rs).
        destruct (serve rh inc st') as [[o r] s]. cbn [snd] in *.
        rewrite handle_all_cons, Eh. exact Hrs.
      * exists [req]. rewrite handle_all_cons, Eh. reflexivity.
    + destruct err;
        try (exists []; reflexivity).
      destruct (IH st) as [rs Hrs]. exists rs.
      destruct (serve rh inc st) as [[o r] s]. exact Hrs.
  - exists []. reflexivity.
Qed.

(** The text of a store of well-formed values, written in any order,
    reloads to that store. *)
Lemma storage_reload_perm (st : Storage) (entries : list (bytes * Value)) :
  map_Forall (fun _ v => value_wf v = true /\ value_depth v <= 126) (storage0 st) ->
  entries ≡ₚ map_to_list (storage0 st) ->
  load_storage (Ok (map_to_string entries)) = Ok st.
Proof.
  destruct st as [m]. cbn [storage0]. intros Hm He.
  unfold load_storage, load_storage_with. rewrite (from_str_map_perm m entries Hm He).
  reflexivity.
Qed.

Lemma serve_keeps_wf (rh : bytes -> result bytes io_error) (inc : list (result Conn io_error))
    (st : Storage) :
  map_Forall (fun _ v => value_wf v = true /\ value_depth v <= 126) (storage0 st) ->
  map_Forall (fun _ v => value_wf v = true /\ value_depth v <= 126) (storage0 (snd (serve rh inc st))).
Proof.
  intros Hm k v Hk. destruct (serve_store_run rh inc st) as [rs Hrs]. rewrite Hrs in Hk.
  apply handle_all_values in Hk as [Hk|[s [-> _]]].
  - exact (Hm k v Hk).
  - split; [reflexivity|cbn; lia].
Qed.

Lemma value_json_parse (v : Value) :
  value_wf v = true -> value_depth v < 128 -> from_str_value (value_to_string v) = Ok v.
Proof.
  intros Hwf Hd. unfold from_str_value.
  rewrite <- (app_nil_r (value_to_string v)) at 2.
  rewrite parse_value_to_string; [reflexivity|exact Hwf|exact Hd| |reflexivity].
  pose proof (value_size_bound v). unfold json_fuel. lia.
Qed.

Lemma strip_cr_no_cr (l : bytes) : last l <> Some CR -> strip_cr l = l.
Proof.
  destruct l as [|c l] using rev_ind; intros H; [reflexivity|].
  rewrite last_snoc in H. unfold strip_cr. rewrite rev_unit.
  destruct (Nat.eqb_spec (bval c) 13) as [E|]; [|reflexivity].
  exfalso. apply H. f_equal. rewrite <- (ascii_nat_embedding c). unfold bval in E. rewrite E.
  reflexivity.
Qed.

(** The request is the first line received: for an ASCII line that fits
    the buffer, what follows the first LF is ignored and the line ending,
    CRLF or LF, is dropped. *)
Theorem request_line_first_line (line rest : bytes) :
  forallb line_byte line = true -> length line + 1 < BUFFER_SIZE ->
  request_line (line ++ CRLF ++ rest) = Some line
  /\ (last line <> Some CR -> request_line (line ++ LF :: rest) = Some line).
Proof.
  intros Hl Hlen. split.
  - replace (line ++ CRLF ++ rest) with ((line ++ [CR]) ++ LF :: rest)
      by (rewrite <- app_assoc; reflexivity).
    rewrite request_line_lf.
    + rewrite strip_cr_cr. reflexivity.
    + rewrite forallb_app, Hl. reflexivity.
    + rewrite length_app. cbn [length]. lia.
  - intros Hc. rewrite request_line_lf by (assumption || lia).
    rewrite strip_cr_no_cr by exact Hc. reflexivity.
Qed.

(** A get request [GET /get?key=<k> <t>] ended by CRLF is read as
    [Get k], whatever follows the line: [k] is a nonempty run of
    non-whitespace ASCII bytes without [key=], and the line fits the
    buffer. *)
Theorem get_request_round_trip (k t rest : bytes) :
  k <> [] -> forallb key_byte k = true -> contains k (lit "key=") = false ->
  forallb line_byte t = true -> contains t (lit "key=") = false ->
  length GET_HEADER + length k + length t + 2 < BUFFER_SIZE ->
  parse_request (Ok (GET_HEADER ++ k ++ byte 32 :: t ++ CRLF ++ rest)) = Ok (Get k).
Proof. intros. apply parse_request_get_line; assumption. Qed.

(** A set request [GET /set?<k>=<v> <t>] ended by CRLF is read as
    [Set_ k v], for [k] and [v] runs of non-whitespace ASCII bytes
    without [=] or [set?] (either may be empty), when the line fits the
    buffer. *)
Theorem set_request_round_trip (k v t rest : bytes) :
  forallb key_byte k = true -> forallb key_byte v = true ->
  contains k (lit "=") = false -> contains v (lit "=") = false ->
  contains k (lit "set?") = false -> contains v (lit "set?") = false ->
  forallb line_byte t = true -> contains t (lit "set?") = false ->
  length SET_HEADER + length k + length v + length t + 3 < BUFFER_SIZE ->
  parse_request (Ok (SET_HEADER ++ k ++ EQ :: v ++ byte 32 :: t ++ CRLF ++ rest)) = Ok (Set_ k v).
Proof. intros. apply parse_request_set_line; assumption. Qed.

(** Only the first [BUFFER_SIZE] bytes are read: a get request whose key
    runs past them is read as [Get] of the key cut to the first
    [BUFFER_SIZE - length GET_HEADER] bytes. *)
Theorem long_get_key_truncated (k rest : bytes) :
  forallb key_byte k = true -> contains k (lit "key=") = false ->
  BUFFER_SIZE <= length GET_HEADER + length k ->
  parse_request (Ok (GET_HEADER ++ k ++ rest)) =
  Ok (Get (take (BUFFER_SIZE - length GET_HEADER) k)).
Proof. intros. apply parse_request_long_get; assumption. Qed.

(** The empty key can be set ([GET /set?=v]) but no input is read as a
    get request for it. *)
Theorem empty_key_set_never_get :
  (forall read, parse_request read <> Ok (Get []))
  /\ (forall v t rest,
        forallb key_byte v = true -> contains v (lit "=") = false ->
        contains v (lit "set?") = false ->
        forallb line_byte t = true -> contains t (lit "set?") = false ->
        length SET_HEADER + length v + length t + 3 < BUFFER_SIZE ->
        parse_request (Ok (SET_HEADER ++ EQ :: v ++ byte 32 :: t ++ CRLF ++ rest))
        = Ok (Set_ [] v)).
Proof.
  split; [exact parse_request_no_empty_get|].
  intros v t rest Hv Hve Hvs Ht Hts Hlen.
  apply (parse_request_set_line [] v t rest); try assumption; try reflexivity.
Qed.



(** The body of a get response decodes ([serde_json::from_str]) to the
    stored value, when that value holds no floating-point number (the
    model's [Value] has no [f64]): a JSON value of null, booleans,
    integers in the [u64] or negative [i64] range, strings, arrays and
    objects with keys in [serde_json::Map]'s sorted order ([value_wf]),
    nested fewer than 128 levels. *)
Theorem get_response_decodes (st : Storage) (k : bytes) (v : Value) :
  storage0 st !! k = Some v -> value_wf v = true -> value_depth v < 128 ->
  exists s, handle_request (Get k) st = (GetSuccess s, st) /\ from_str_value s = Ok v.
Proof.
  intros Hk Hwf Hd. exists (value_to_string v). split.
  - unfold handle_request. rewrite Hk. reflexivity.
  - apply value_json_parse; assumption.
Qed.

(** Different JSON values without floating-point numbers (the model's
    [Value] has no [f64]; integers in the [u64] or negative [i64] range,
    object keys in [serde_json::Map]'s sorted order) have different JSON
    texts, so get responses for different stored values differ. *)
Theorem value_to_string_injective (v1 v2 : Value) :
  value_wf v1 = true -> value_wf v2 = true ->
  v1 <> v2 -> value_to_string v1 <> value_to_string v2.
Proof.
  intros H1 H2 Hne E. apply Hne.
  assert (P1 : parse_value (S (value_size v1 + value_size v2)) (S (value_depth v1 + value_depth v2))
                 (value_to_string v1 ++ []) = Ok (v1, [])).
  { apply parse_value_to_string; [exact H1|lia|lia|reflexivity]. }
  assert (P2 : parse_value (S (value_size v1 + value_size v2)) (S (value_depth v1 + value_depth v2))
                 (value_to_string v2 ++ []) = Ok (v2, [])).
  { apply parse_value_to_string; [exact H2|lia|lia|reflexivity]. }
  rewrite E, P2 in P1. congruence.
Qed.

(** Restarting is lossless. Let the snapshot read at start-up be a JSON
    object the model loads ([from_str_map s = Ok m]; the model rejects
    floating-point numbers, which its [Value] does not have, so this
    covers snapshots without them). [server_init] writes the snapshot of
    the store the run ended with (the loaded store if the bind failed),
    and the text of that store, whatever order the [HashMap] is iterated
    in, loads back to that same store. *)
Theorem server_init_restart (rh : bytes -> result bytes io_error) (s : bytes)
    (m : gmap bytes Value) (bind_ok : bool) (incoming : list (result Conn io_error))
    (r : result unit ServerError) (out : bytes) :
  from_str_map s = Ok m ->
  server_init rh (Ok s) bind_ok incoming = (r, Some out) ->
  let final := if bind_ok then snd (serve rh incoming (Storage_ m)) else Storage_ m in
  out = storage_json final
  /\ (forall entries, entries ≡ₚ map_to_list (storage0 final) ->
      load_storage (Ok (map_to_string entries)) = Ok final).
Proof.
  intros Hs Hi. pose proof (from_str_map_ok s m Hs) as Hm.
  unfold server_init, load_storage, load_storage_with in Hi. rewrite Hs in Hi. cbv zeta.
  destruct bind_ok.
  - pose proof (serve_keeps_wf rh incoming (Storage_ m) Hm) as Hw.
    destruct (serve rh incoming (Storage_ m)) as [[o r'] st'] eqn:E.
    injection Hi as _ <-. cbn [snd] in *. split; [reflexivity|].
    intros entries He. apply storage_reload_perm; assumption.
  - injection Hi as _ <-. split; [reflexivity|].
    intros entries He. apply storage_reload_perm; assumption.
Qed.

(** ** Instances of the theorems at concrete inputs *)

Lemma overwrite_last_write_wins_witness :
  lit "x" <> lit "y"
  /\ fst (handle_request (Get (lit "k"))
            (snd (handle_request (Set_ (lit "k") (lit "y"))
                    (snd (handle_request (Set_ (lit "k") (lit "x")) empty_storage)))))
     <> GetSuccess (serialize_str (lit "x")).
Proof.
  assert (H : lit "x" <> lit "y") by discriminate.
  split; [exact H|].
  exact (proj2 (proj2 (overwrite_last_write_wins empty_storage (lit "k") (lit "x") (lit "y"))) H).
Defined.

Lemma get_unset_key_not_found_witness :
  storage0 empty_storage !! lit "b" = None
  /\ Forall (fun r => sets_key (lit "b") r = false) [Set_ (lit "a") (lit "1"); Get (lit "b")]
  /\ handle_request (Get (lit "b")) (snd (handle_all [Set_ (lit "a") (lit "1"); Get (lit "b")] empty_storage))
     = (NotFound, snd (handle_all [Set_ (lit "a") (lit "1"); Get (lit "b")] empty_storage)).
Proof.
  assert (H1 : storage0 empty_storage !! lit "b" = None) by reflexivity.
  assert (H2 : Forall (fun r => sets_key (lit "b") r = false) [Set_ (lit "a") (lit "1"); Get (lit "b")])
    by (repeat constructor).
  split; [exact H1|split; [exact H2|]].
  exact (proj1 (get_unset_key_not_found empty_storage _ (lit "b") H1 H2)).
Defined.

Lemma store_holds_json_strings_witness :
  Forall (fun r => sets_key (lit "k") r = false) [Get (lit "z")]
  /\ fst (handle_request (Get (lit "k")) (snd (handle_all [Set_ (lit "k") (lit "v"); Get (lit "z")] empty_storage)))
     = GetSuccess ([QUOTE] ++ flat_map escape_byte (lit "v") ++ [QUOTE]).
Proof.
  assert (H : Forall (fun r => sets_key (lit "k") r = false) [Get (lit "z")]) by (repeat constructor).
  split; [exact H|].
  exact (proj2 (proj2 store_holds_json_strings) empty_storage [Get (lit "z")] (lit "k") (lit "v") H).
Defined.

Lemma unrecognized_request_skipped_witness :
  let stream := Conn_ (Ok (lit "GET /other HTTP/1.1" ++ CRLF)) true in
  conn_read stream = Ok (lit "GET /other HTTP/1.1" ++ CRLF)
  /\ request_line (lit "GET /other HTTP/1.1" ++ CRLF) = Some (lit "GET /other HTTP/1.1")
  /\ starts_with GET_HEADER (lit "GET /other HTTP/1.1") = false
  /\ starts_with SET_HEADER (lit "GET /other HTTP/1.1") = false
  /\ parse_request (conn_read stream) = Err InvalidRequest
  /\ serve (fun _ => Ok []) [Ok stream] empty_storage = ([[]], Ok tt, empty_storage).
Proof.
  intros stream.
  assert (H1 : conn_read stream = Ok (lit "GET /other HTTP/1.1" ++ CRLF)) by reflexivity.
  assert (H2 : request_line (lit "GET /other HTTP/1.1" ++ CRLF) = Some (lit "GET /other HTTP/1.1"))
    by (vm_compute; reflexivity).
  assert (H3 : starts_with GET_HEADER (lit "GET /other HTTP/1.1") = false) by reflexivity.
  assert (H4 : starts_with SET_HEADER (lit "GET /other HTTP/1.1") = false) by reflexivity.
  destruct (unrecognized_request_skipped (fun _ => Ok []) stream [] empty_storage _ _ H1 H2 H3 H4)
    as [Hp Hs].
  split; [exact H1|split; [exact H2|split; [exact H3|split; [exact H4|split; [exact Hp|]]]]].
  rewrite Hs. reflexivity.
Defined.

Lemma parse_set_splits_token_on_every_eq_witness :
  split (lit "GET /set?a=b HTTP/1.1") (lit "set?") = [lit "GET /"; lit "a=b HTTP/1.1"]
  /\ split_whitespace_next (lit "a=b HTTP/1.1") = Some (lit "a=b")
  /\ (parse_set (lit "GET /set?a=b HTTP/1.1") = Ok (lit "a", lit "b")
      <-> (lit "a=b" = lit "a" ++ (EQ :: lit "b") /\ (EQ ∉ lit "a") /\ (EQ ∉ lit "b"))).
Proof.
  assert (H1 : split (lit "GET /set?a=b HTTP/1.1") (lit "set?") = [lit "GET /"; lit "a=b HTTP/1.1"])
    by (vm_compute; reflexivity).
  assert (H2 : split_whitespace_next (lit "a=b HTTP/1.1") = Some (lit "a=b"))
    by (vm_compute; reflexivity).
  split; [exact H1|split; [exact H2|]].
  exact (proj1 parse_set_splits_token_on_every_eq _ _ _ _ (lit "a") (lit "b") H1 H2).
Defined.

Lemma snapshot_load_behaviour_witness :
  let s := lit "{" ++ byte 34 :: lit "a" ++ byte 34 :: lit ":1.5,}" in
  from_str_map s = Err FloatNotModelled
  /\ load_storage_with from_str_map (Ok s) = Ok (Storage_ ∅).
Proof.
  intros s.
  assert (H : from_str_map s = Err FloatNotModelled) by (vm_compute; reflexivity).
  exact (conj H (proj2 (proj2 snapshot_load_behaviour) json_error from_str_map s
                   FloatNotModelled H)).
Defined.

Lemma snapshot_round_trip_witness :
  let m : gmap bytes Value :=
    {[lit "a" := VArray [VNumber (PosInt 1); VNumber (NegInt (-2)); VString (lit "x")];
      lit "b" := VObject [(lit "k", VBool true); (lit "l", VNull)]]} in
  rev (map_to_list m) ≡ₚ map_to_list m
  /\ map_Forall (fun _ v => value_wf v = true /\ value_depth v <= 126) m
  /\ from_str_map (map_to_string (rev (map_to_list m))) = Ok m.
Proof.
  intros m.
  assert (H1 : rev (map_to_list m) ≡ₚ map_to_list m) by (symmetry; apply Permutation_rev).
  assert (H2 : map_Forall (fun _ v => value_wf v = true /\ value_depth v <= 126) m)
    by (apply (bool_decide_unpack _); vm_compute; reflexivity).
  exact (conj H1 (conj H2 (proj1 (snapshot_round_trip m (rev (map_to_list m)) H1 H2)))).
Defined.

Lemma request_line_first_line_witness :
  forallb line_byte (lit "GET / HTTP/1.1") = true
  /\ length (lit "GET / HTTP/1.1") + 1 < BUFFER_SIZE
  /\ request_line (lit "GET / HTTP/1.1" ++ CRLF ++ lit "Host: x") = Some (lit "GET / HTTP/1.1")
  /\ last (lit "GET / HTTP/1.1") <> Some CR
  /\ request_line (lit "GET / HTTP/1.1" ++ LF :: lit "Host: x") = Some (lit "GET / HTTP/1.1").
Proof.
  assert (H1 : forallb line_byte (lit "GET / HTTP/1.1") = true) by reflexivity.
  assert (H2 : length (lit "GET / HTTP/1.1") + 1 < BUFFER_SIZE) by (apply Nat.ltb_lt; reflexivity).
  assert (H3 : last (lit "GET / HTTP/1.1") <> Some CR)
    by (apply (bool_decide_unpack _); vm_compute; reflexivity).
  destruct (request_line_first_line (lit "GET / HTTP/1.1") (lit "Host: x") H1 H2) as [A B].
  exact (conj H1 (conj H2 (conj A (conj H3 (B H3))))).
Defined.

Lemma get_request_round_trip_witness :
  lit "name" <> [] /\ forallb key_byte (lit "name") = true
  /\ contains (lit "name") (lit "key=") = false
  /\ forallb line_byte (lit "HTTP/1.1") = true /\ contains (lit "HTTP/1.1") (lit "key=") = false
  /\ length GET_HEADER + length (lit "name") + length (lit "HTTP/1.1") + 2 < BUFFER_SIZE
  /\ parse_request (Ok (GET_HEADER ++ lit "name" ++ byte 32 :: lit "HTTP/1.1" ++ CRLF ++ lit "Host: x"))
     = Ok (Get (lit "name")).
Proof.
  assert (H1 : lit "name" <> []) by discriminate.
  assert (H2 : forallb key_byte (lit "name") = true) by reflexivity.
  assert (H3 : contains (lit "name") (lit "key=") = false) by reflexivity.
  assert (H4 : forallb line_byte (lit "HTTP/1.1") = true) by reflexivity.
  assert (H5 : contains (lit "HTTP/1.1") (lit "key=") = false) by reflexivity.
  assert (H6 : length GET_HEADER + length (lit "name") + length (lit "HTTP/1.1") + 2 < BUFFER_SIZE)
    by (apply Nat.ltb_lt; reflexivity).
  exact (conj H1 (conj H2 (conj H3 (conj H4 (conj H5 (conj H6 ((get_request_round_trip _ _ (lit "Host: x") H1 H2 H3 H4 H5 H6)))))))).
Defined.

Lemma set_request_round_trip_witness :
  forallb key_byte (lit "a") = true /\ forallb key_byte (lit "1") = true
  /\ contains (lit "a") (lit "=") = false /\ contains (lit "1") (lit "=") = false
  /\ contains (lit "a") (lit "set?") = false /\ contains (lit "1") (lit "set?") = false
  /\ forallb line_byte (lit "HTTP/1.1") = true /\ contains (lit "HTTP/1.1") (lit "set?") = false
  /\ length SET_HEADER + length (lit "a") + length (lit "1") + length (lit "HTTP/1.1") + 3 < BUFFER_SIZE
  /\ parse_request (Ok (SET_HEADER ++ lit "a" ++ EQ :: lit "1" ++ byte 32 :: lit "HTTP/1.1" ++ CRLF ++ []))
     = Ok (Set_ (lit "a") (lit "1")).
Proof.
  assert (H1 : forallb key_byte (lit "a") = true) by reflexivity.
  assert (H2 : forallb key_byte (lit "1") = true) by reflexivity.
  assert (H3 : contains (lit "a") (lit "=") = false) by reflexivity.
  assert (H4 : contains (lit "1") (lit "=") = false) by reflexivity.
  assert (H5 : contains (lit "a") (lit "set?") = false) by reflexivity.
  assert (H6 : contains (lit "1") (lit "set?") = false) by reflexivity.
  assert (H7 : forallb line_byte (lit "HTTP/1.1") = true) by reflexivity.
  assert (H8 : contains (lit "HTTP/1.1") (lit "set?") = false) by reflexivity.
  assert (H9 : length SET_HEADER + length (lit "a") + length (lit "1") + length (lit "HTTP/1.1") + 3
               < BUFFER_SIZE) by (apply Nat.ltb_lt; reflexivity).
  exact (conj H1 (conj H2 (conj H3 (conj H4 (conj H5 (conj H6 (conj H7 (conj H8 (conj H9 ((set_request_round_trip _ _ _ [] H1 H2 H3 H4 H5 H6 H7 H8 H9))))))))))).
Defined.

Lemma long_get_key_truncated_witness :
  forallb key_byte (replicate 1100 (byte 97)) = true
  /\ contains (replicate 1100 (byte 97)) (lit "key=") = false
  /\ BUFFER_SIZE <= length GET_HEADER + length (replicate 1100 (byte 97))
  /\ parse_request (Ok (GET_HEADER ++ replicate 1100 (byte 97) ++ CRLF))
     = Ok (Get (take (BUFFER_SIZE - length GET_HEADER) (replicate 1100 (byte 97)))).
Proof.
  assert (H1 : forallb key_byte (replicate 1100 (byte 97)) = true) by (vm_compute; reflexivity).
  assert (H2 : contains (replicate 1100 (byte 97)) (lit "key=") = false) by (vm_compute; reflexivity).
  assert (H3 : BUFFER_SIZE <= length GET_HEADER + length (replicate 1100 (byte 97)))
    by (apply Nat.leb_le; vm_compute; reflexivity).
  exact (conj H1 (conj H2 (conj H3 ((long_get_key_truncated _ CRLF H1 H2 H3))))).
Defined.

Lemma empty_key_set_never_get_witness :
  forallb key_byte (lit "1") = true /\ contains (lit "1") (lit "=") = false
  /\ contains (lit "1") (lit "set?") = false
  /\ forallb line_byte (lit "HTTP/1.1") = true /\ contains (lit "HTTP/1.1") (lit "set?") = false
  /\ length SET_HEADER + length (lit "1") + length (lit "HTTP/1.1") + 3 < BUFFER_SIZE
  /\ parse_request (Ok (SET_HEADER ++ EQ :: lit "1" ++ byte 32 :: lit "HTTP/1.1" ++ CRLF ++ []))
     = Ok (Set_ [] (lit "1"))
  /\ parse_request (Ok (GET_HEADER ++ byte 32 :: lit "HTTP/1.1" ++ CRLF)) <> Ok (Get []).
Proof.
  assert (H1 : forallb key_byte (lit "1") = true) by reflexivity.
  assert (H2 : contains (lit "1") (lit "=") = false) by reflexivity.
  assert (H3 : contains (lit "1") (lit "set?") = false) by reflexivity.
  assert (H4 : forallb line_byte (lit "HTTP/1.1") = true) by reflexivity.
  assert (H5 : contains (lit "HTTP/1.1") (lit "set?") = false) by reflexivity.
  assert (H6 : length SET_HEADER + length (lit "1") + length (lit "HTTP/1.1") + 3 < BUFFER_SIZE)
    by (apply Nat.ltb_lt; reflexivity).
  exact (conj H1 (conj H2 (conj H3 (conj H4 (conj H5 (conj H6
           (conj (proj2 empty_key_set_never_get _ _ [] H1 H2 H3 H4 H5 H6)
                 (proj1 empty_key_set_never_get _)))))))).
Defined.



Lemma get_response_decodes_witness :
  storage0 (Storage_ {[lit "a" := VArray [VBool true; VNumber (PosInt 7)]]}) !! lit "a"
    = Some (VArray [VBool true; VNumber (PosInt 7)])
  /\ value_wf (VArray [VBool true; VNumber (PosInt 7)]) = true
  /\ value_depth (VArray [VBool true; VNumber (PosInt 7)]) < 128
  /\ exists s, handle_request (Get (lit "a")) (Storage_ {[lit "a" := VArray [VBool true; VNumber (PosInt 7)]]})
       = (GetSuccess s, Storage_ {[lit "a" := VArray [VBool true; VNumber (PosInt 7)]]})
     /\ from_str_value s = Ok (VArray [VBool true; VNumber (PosInt 7)]).
Proof.
  assert (H1 : storage0 (Storage_ {[lit "a" := VArray [VBool true; VNumber (PosInt 7)]]}) !! lit "a"
               = Some (VArray [VBool true; VNumber (PosInt 7)])) by (apply lookup_singleton_eq).
  assert (H2 : value_wf (VArray [VBool true; VNumber (PosInt 7)]) = true) by reflexivity.
  assert (H3 : value_depth (VArray [VBool true; VNumber (PosInt 7)]) < 128)
    by (apply Nat.ltb_lt; reflexivity).
  exact (conj H1 (conj H2 (conj H3 ((get_response_decodes _ _ _ H1 H2 H3))))).
Defined.

Lemma value_to_string_injective_witness :
  value_wf (VString (lit "1")) = true /\ value_wf (VNumber (PosInt 1)) = true
  /\ VString (lit "1") <> VNumber (PosInt 1)
  /\ value_to_string (VString (lit "1")) <> value_to_string (VNumber (PosInt 1)).
Proof.
  assert (H1 : value_wf (VString (lit "1")) = true) by reflexivity.
  assert (H2 : value_wf (VNumber (PosInt 1)) = true) by reflexivity.
  assert (H3 : VString (lit "1") <> VNumber (PosInt 1)) by discriminate.
  exact (conj H1 (conj H2 (conj H3 (value_to_string_injective _ _ H1 H2 H3)))).
Defined.

Lemma server_init_restart_witness :
  from_str_map (map_to_string [(lit "a", VNumber (PosInt 1)); (lit "b", VArray [VNull])])
    = Ok (<[lit "a" := VNumber (PosInt 1)]> {[lit "b" := VArray [VNull]]})
  /\ server_init (fun _ => Ok (lit "ok"))
       (Ok (map_to_string [(lit "a", VNumber (PosInt 1)); (lit "b", VArray [VNull])])) true
       [Ok (Conn_ (Ok (lit "GET /set?a=2 HTTP/1.1" ++ CRLF)) true)]
     = (Ok tt, Some (storage_json (Storage_ (<[lit "a" := VString (lit "2")]>
                                               {[lit "b" := VArray [VNull]]}))))
  /\ let final := snd (serve (fun _ => Ok (lit "ok"))
                         [Ok (Conn_ (Ok (lit "GET /set?a=2 HTTP/1.1" ++ CRLF)) true)]
                         (Storage_ (<[lit "a" := VNumber (PosInt 1)]> {[lit "b" := VArray [VNull]]}))) in
     storage_json (Storage_ (<[lit "a" := VString (lit "2")]> {[lit "b" := VArray [VNull]]}))
       = storage_json final
     /\ (forall entries, entries ≡ₚ map_to_list (storage0 final) ->
         load_storage (Ok (map_to_string entries)) = Ok final).
Proof.
  assert (H1 : from_str_map (map_to_string [(lit "a", VNumber (PosInt 1)); (lit "b", VArray [VNull])])
               = Ok (<[lit "a" := VNumber (PosInt 1)]> {[lit "b" := VArray [VNull]]}))
    by (vm_compute; reflexivity).
  assert (H2 : server_init (fun _ => Ok (lit "ok"))
                 (Ok (map_to_string [(lit "a", VNumber (PosInt 1)); (lit "b", VArray [VNull])])) true
                 [Ok (Conn_ (Ok (lit "GET /set?a=2 HTTP/1.1" ++ CRLF)) true)]
               = (Ok tt, Some (storage_json (Storage_ (<[lit "a" := VString (lit "2")]>
                                                         {[lit "b" := VArray [VNull]]})))))
    by (vm_compute; reflexivity).
  exact (conj H1 (conj H2 (server_init_restart _ _ _ true _ _ _ H1 H2))).
Defined.

